(** * Crane-game prize inventory: a shallow embedding of the app's logic

    The development follows the React component [App] (the variant with the
    debounced persistence effect), the older variant kept in [src/App.tsx]
    and the form [PrizeFormModal]:

    - [JsVal], [migratePrizes]: the untyped values that [JSON.parse] hands to
      the migration function, and the migration itself;
    - [Prize] and the collection updaters behind [handleSavePrize],
      [handleDeletePrize] and [handleQuantityChange];
    - [filteredAndSortedPrizes]: the filter/sort view model;
    - [resetForm], [handleSubmit]: the seeding of the form's edit buffer and
      its submission;
    - [App], [World], [step]: the component's state and refs together with
      the host's timer queue and storage slot, driven by user events and
      clock ticks; [unmount]: its teardown;
    - [Legacy]: the load and save effects and the callbacks of the older
      variant. *)

From Stdlib Require Import ZArith QArith List String Ascii Bool Lia.
From Stdlib Require Import Permutation Sorted DecimalString.
From stdpp Require Import base list.
Import ListNotations.

#[local] Set Warnings "-register-all".

Local Open Scope string_scope.
Local Open Scope list_scope.
Local Open Scope Z_scope.

(** ** JavaScript values as produced by [JSON.parse] *)

Module Js.

(** A JS number.  Only its truthiness is ever inspected by the code below. *)
Inductive number :=
| NaN
| Infinity (negative : bool)
| Finite (q : Q).

Definition number_truthy (n : number) : bool :=
  match n with
  | NaN => false
  | Infinity _ => true
  | Finite q => negb (Qnum q =? 0)
  end.

Inductive JsVal :=
| JUndefined
| JNull
| JBool (b : bool)
| JNum (n : number)
| JStr (s : string)
| JArr (elems : list JsVal)
| JObj (props : list (string * JsVal)).

Definition num (z : Z) : JsVal := JNum (Finite (inject_Z z)).

(** [Boolean(v)], the test behind [filter(Boolean)] and [||]. *)
Definition truthy (v : JsVal) : bool :=
  match v with
  | JUndefined | JNull => false
  | JBool b => b
  | JNum n => number_truthy n
  | JStr s => negb (s =? "")%string
  | JArr _ | JObj _ => true
  end.

(** [v == null], the test behind [??]. *)
Definition nullish (v : JsVal) : bool :=
  match v with
  | JUndefined | JNull => true
  | _ => false
  end.

(** [a || b] and [a ?? b]. *)
Definition or_else (a b : JsVal) : JsVal := if truthy a then a else b.
Definition coalesce (a b : JsVal) : JsVal := if nullish a then b else a.

Definition Array_isArray (v : JsVal) : bool :=
  match v with
  | JArr _ => true
  | _ => false
  end.

(** The elements of an array (no other value has any). *)
Definition elements (v : JsVal) : list JsVal :=
  match v with
  | JArr elems => elems
  | _ => []
  end.

Definition index_key (i : nat) : string := NilEmpty.string_of_uint (Nat.to_uint i).

Fixpoint indexed_from (i : nat) (l : list JsVal) : list (string * JsVal) :=
  match l with
  | [] => []
  | v :: l' => (index_key i, v) :: indexed_from (S i) l'
  end.

(** The own enumerable properties that an object spread [{...v}] copies:
    the properties of an object, the index properties of an array or of a
    string (one per code unit; strings are byte strings here, which is exact
    for ASCII), and nothing for the other primitives. *)
Definition ownProps (v : JsVal) : list (string * JsVal) :=
  match v with
  | JObj props => props
  | JArr elems => indexed_from 0 elems
  | JStr s => indexed_from 0 (map (fun c => JStr (String c "")) (list_ascii_of_string s))
  | _ => []
  end.

Fixpoint assoc (k : string) (props : list (string * JsVal)) : option JsVal :=
  match props with
  | [] => None
  | (k', v) :: rest => if (k' =? k)%string then Some v else assoc k rest
  end.

(** Property read [v.k] on a truthy value.  Arrays and strings answer
    [length] besides their index properties; members inherited from the
    built-in prototypes are not modelled (the code reads only [category] and
    [quantity]). *)
Definition getProp (k : string) (v : JsVal) : JsVal :=
  match v with
  | JArr elems =>
      if (k =? "length")%string then num (Z.of_nat (length elems))
      else default JUndefined (assoc k (ownProps v))
  | JStr s =>
      if (k =? "length")%string then num (Z.of_nat (String.length s))
      else default JUndefined (assoc k (ownProps v))
  | _ => default JUndefined (assoc k (ownProps v))
  end.

(** Defining property [k] in an object literal under construction: an
    existing key keeps its place and takes the new value, a new key goes
    last. *)
Fixpoint setProp (k : string) (v : JsVal) (props : list (string * JsVal))
  : list (string * JsVal) :=
  match props with
  | [] => [(k, v)]
  | (k', v') :: rest =>
      if (k' =? k)%string then (k, v) :: rest else (k', v') :: setProp k v rest
  end.

End Js.

Import Js.

(** ** Migration of stored records *)

(** The fallback category, the string ['その他']. *)
Definition fallbackCategory : string := "その他".

(** The arrow function mapped over the kept elements:
    [{ ...p, category: p.category || 'その他', quantity: p.quantity ?? 1 }]. *)
Definition migrateOne (p : JsVal) : JsVal :=
  JObj (setProp "quantity" (coalesce (getProp "quantity" p) (num 1))
         (setProp "category" (or_else (getProp "category" p) (JStr fallbackCategory))
           (ownProps p))).

Definition migratePrizes (parsed : JsVal) : list JsVal :=
  if negb (Array_isArray parsed) then []
  else map migrateOne (List.filter truthy (elements parsed)).

(** ** The typed data model *)

(** Modelled from the spec: the module [./types] (the declarations of
    [Prize], [PrizeCategory] and [Manufacturer]) is not among the sources.
    The fields are those of the persisted layout (identifier, name,
    category, manufacturer, quantity, acquisitionDate, photo, notes); the
    enumerations are the constant arrays [prizeCategories] and
    [prizeManufacturers] of the components; manufacturer, photo and notes are
    optional. *)
Module Types.

(** ['マスコット' | 'ぬいぐるみ' | 'フィギュア' | 'その他'] *)
Inductive PrizeCategory := Mascot | Plush | Figure | OtherCategory.

(** ['指定なし' | 'バンダイナムコ' | 'タイトー' | 'SEGA FAVE' | 'FuRyu' | 'Parade'
    | 'SK' | 'その他'] *)
Inductive Manufacturer :=
| Unspecified | BandaiNamco | Taito | SegaFave | FuRyu | Parade | SK | OtherMaker.

Record Prize := {
  id : string;
  name : string;
  category : PrizeCategory;
  manufacturer : option Manufacturer;
  quantity : Z;
  acquisitionDate : string;
  photo : option string;
  notes : option string;
}.

Definition PrizeCategory_eqb (a b : PrizeCategory) : bool :=
  match a, b with
  | Mascot, Mascot | Plush, Plush | Figure, Figure | OtherCategory, OtherCategory => true
  | _, _ => false
  end.

End Types.

Import Types.

(** ** Collection updaters of the CRUD callbacks *)

(** [prevPrizes.findIndex(p => p.id === prizeId)]: the first matching index,
    or [-1]. *)
Fixpoint findIndex (prizeId : string) (prevPrizes : list Prize) : Z :=
  match prevPrizes with
  | [] => -1
  | p :: rest =>
      if (id p =? prizeId)%string then 0
      else let i := findIndex prizeId rest in if i =? -1 then -1 else i + 1
  end.

(** The updater that [handleSavePrize] passes to [setPrizes] (the same text
    in both variants of the component). *)
Definition savePrize (prize : Prize) (prevPrizes : list Prize) : list Prize :=
  let existingIndex := findIndex (id prize) prevPrizes in
  if existingIndex >? -1 then <[Z.to_nat existingIndex := prize]> prevPrizes
  else prevPrizes ++ [prize].

(** The updater of [handleDeletePrize]:
    [prevPrizes.filter(p => p.id !== prizeId)]. *)
Definition deletePrize (prizeId : string) (prevPrizes : list Prize) : list Prize :=
  List.filter (fun p => negb (id p =? prizeId)%string) prevPrizes.

Definition withQuantity (p : Prize) (newQuantity : Z) : Prize :=
  {| id := id p; name := name p; category := category p;
     manufacturer := manufacturer p; quantity := newQuantity;
     acquisitionDate := acquisitionDate p; photo := photo p; notes := notes p |}.

(** The updater of [handleQuantityChange]. *)
Definition changeQuantity (prizeId : string) (newQuantity : Z) (prevPrizes : list Prize)
  : list Prize :=
  map (fun p => if (id p =? prizeId)%string then withQuantity p newQuantity else p)
      prevPrizes.

(** ** [Array.prototype.sort] *)

Section Sort.
Context {A : Type}.
(** The comparator's result, with [NaN] already read as [+0] as the sort
    does. *)
Variable compareFn : A -> A -> Z.

Fixpoint insert_sorted (x : A) (l : list A) : list A :=
  match l with
  | [] => [x]
  | y :: l' => if 0 <? compareFn x y then y :: insert_sorted x l' else x :: l
  end.

(** The sort is stable; for a consistent comparator every stable sort
    returns this list, computed here by insertion from the right. *)
Fixpoint Array_sort (l : list A) : list A :=
  match l with
  | [] => []
  | x :: l' => insert_sorted x (Array_sort l')
  end.
End Sort.

(** ** The filter/sort view model *)

Inductive SortOrder := date_desc | name_asc | name_desc.

(** [PrizeCategory | 'すべて'] *)
Inductive CategoryFilter := AllCategories | Only (c : PrizeCategory).

(** [s.includes(term)] *)
Fixpoint includes (s term : string) : bool :=
  if String.prefix term s then true
  else match s with
       | EmptyString => false
       | String _ s' => includes s' term
       end.

Definition categoryMatch (selectedCategory : CategoryFilter) (prize : Prize) : bool :=
  match selectedCategory with
  | AllCategories => true
  | Only c => PrizeCategory_eqb (category prize) c
  end.

Section ViewModel.
(** Host built-ins: [String.prototype.toLowerCase], [trim],
    [a.localeCompare(b, 'ja')] and [new Date(s).getTime()] ([None] for
    [NaN]). *)
Variable toLowerCase : string -> string.
Variable trim : string -> string.
Variable localeCompare : string -> string -> Z.
Variable getTime : string -> option Z.

(** [new Date(b.acquisitionDate).getTime() - new Date(a.acquisitionDate).getTime()] *)
Definition compareDateDesc (a b : Prize) : Z :=
  match getTime (acquisitionDate b), getTime (acquisitionDate a) with
  | Some tb, Some ta => tb - ta
  | _, _ => 0
  end.

Definition sortBy (sortOrder : SortOrder) (filtered : list Prize) : list Prize :=
  match sortOrder with
  | name_asc => Array_sort (fun a b => localeCompare (name a) (name b)) filtered
  | name_desc => Array_sort (fun a b => localeCompare (name b) (name a)) filtered
  | date_desc => Array_sort compareDateDesc filtered
  end.

Definition matches (term : string) (selectedCategory : CategoryFilter) (prize : Prize)
  : bool :=
  let nameMatch := includes (toLowerCase (name prize)) term in
  nameMatch && categoryMatch selectedCategory prize.

Definition filteredAndSortedPrizes (prizes : list Prize) (searchTerm : string)
    (selectedCategory : CategoryFilter) (sortOrder : SortOrder) : list Prize :=
  let term := toLowerCase (trim searchTerm) in
  let filtered := List.filter (matches term selectedCategory) prizes in
  sortBy sortOrder filtered.

(** The older variant of the component ([src/App.tsx]) lower-cases the
    search term without trimming it. *)
Definition legacy_filteredAndSortedPrizes (prizes : list Prize) (searchTerm : string)
    (selectedCategory : CategoryFilter) (sortOrder : SortOrder) : list Prize :=
  let filtered := List.filter (matches (toLowerCase searchTerm) selectedCategory) prizes in
  sortBy sortOrder filtered.
End ViewModel.

(** ** The form's edit buffer *)

Module PrizeFormModal.

Record State := {
  name : string;
  quantity : Z;
  acquisitionDate : string;
  photo : string;
  notes : string;
  category : PrizeCategory;
  manufacturer : Manufacturer;
  error : string;
}.

(** [x || d] on an optional string: [undefined] and [''] are falsy. *)
Definition string_or (x : option string) (d : string) : string :=
  match x with
  | Some s => if (s =? "")%string then d else s
  | None => d
  end.

(** [x || d] on an optional number: [undefined] and [0] are falsy. *)
Definition number_or (x : option Z) (d : Z) : Z :=
  match x with
  | Some n => if n =? 0 then d else n
  | None => d
  end.

(** [resetForm]; [today] is [new Date().toISOString().split('T')[0]]. *)
Definition resetForm (prizeToEdit : option Prize) (today : string) : State :=
  {| name := string_or (Types.name <$> prizeToEdit) "";
     quantity := number_or (Types.quantity <$> prizeToEdit) 1;
     acquisitionDate := string_or (Types.acquisitionDate <$> prizeToEdit) today;
     photo := string_or (prizeToEdit ≫= Types.photo) "";
     notes := string_or (prizeToEdit ≫= Types.notes) "";
     category := default OtherCategory (Types.category <$> prizeToEdit);
     manufacturer := default Unspecified (prizeToEdit ≫= Types.manufacturer);
     error := "" |}.

(** The message of a rejected submission, ['景品名と獲得日は必須です。']. *)
Definition requiredMessage : string := "景品名と獲得日は必須です。".

Definition set_error (message : string) (s : State) : State :=
  {| name := name s; quantity := quantity s; acquisitionDate := acquisitionDate s;
     photo := photo s; notes := notes s; category := category s;
     manufacturer := manufacturer s; error := message |}.

(** [handleSubmit]: the buffer after the submission and the record handed
    to [onSave], if any.  [freshId] is
    [new Date().toISOString() + Math.random()]. *)
Definition handleSubmit (prizeToEdit : option Prize) (freshId : string) (s : State)
  : State * option Prize :=
  if (name s =? "")%string || (acquisitionDate s =? "")%string
  then (set_error requiredMessage s, None)
  else
    (s,
     Some {| Types.id := string_or (Types.id <$> prizeToEdit) freshId;
             Types.name := name s;
             Types.quantity := quantity s;
             Types.acquisitionDate := acquisitionDate s;
             Types.category := category s;
             Types.manufacturer := Some (manufacturer s);
             Types.photo := Some (photo s);
             Types.notes := Some (notes s) |}).

End PrizeFormModal.

(** ** The component and its host *)

Inductive SaveStatus := idle | saving | saved.

(** The closures handed to [window.setTimeout]: the delayed write, which
    captures [mySeq] and the [prizes] of its render, and the revert of the
    status indicator. *)
Inductive Callback :=
| SaveCallback (mySeq : Z) (captured : list Prize)
| StatusCallback.

Record Timer := {
  handle : positive;
  due : Z;
  callback : Callback;
}.

(** The state hooks and refs of [App].  [saveSeqRef] counts in exact
    integers: a JS number does so up to 2^53 increments.  [persistCleanup]
    records whether the last run of the persistence effect returned its
    cleanup function. *)
Record App := {
  prizes : list Prize;
  isModalOpen : bool;
  prizeToEdit : option Prize;
  searchTerm : string;
  selectedCategory : CategoryFilter;
  sortOrder : SortOrder;
  saveStatus : SaveStatus;
  hydrated : bool;
  saveTimeoutRef : option positive;
  statusTimeoutRef : option positive;
  saveSeqRef : Z;
  persistCleanup : bool;
}.

(** The component inside its host: whether React has run the mount effects,
    the clock, the pending timers, the storage slot under [STORAGE_KEY] and
    the values passed to [localStorage.setItem] so far. *)
Record World := {
  app : App;
  mounted : bool;
  now : Z;
  timers : list Timer;
  nextHandle : positive;
  storage : option string;
  setItemCalls : list string;
}.

Definition set_prizes (v : list Prize) (a : App) : App :=
  {| prizes := v; isModalOpen := isModalOpen a; prizeToEdit := prizeToEdit a;
     searchTerm := searchTerm a; selectedCategory := selectedCategory a;
     sortOrder := sortOrder a; saveStatus := saveStatus a; hydrated := hydrated a;
     saveTimeoutRef := saveTimeoutRef a; statusTimeoutRef := statusTimeoutRef a;
     saveSeqRef := saveSeqRef a; persistCleanup := persistCleanup a |}.

Definition set_modal (open : bool) (p : option Prize) (a : App) : App :=
  {| prizes := prizes a; isModalOpen := open; prizeToEdit := p;
     searchTerm := searchTerm a; selectedCategory := selectedCategory a;
     sortOrder := sortOrder a; saveStatus := saveStatus a; hydrated := hydrated a;
     saveTimeoutRef := saveTimeoutRef a; statusTimeoutRef := statusTimeoutRef a;
     saveSeqRef := saveSeqRef a; persistCleanup := persistCleanup a |}.

Definition set_controls (term : string) (c : CategoryFilter) (o : SortOrder) (a : App)
  : App :=
  {| prizes := prizes a; isModalOpen := isModalOpen a; prizeToEdit := prizeToEdit a;
     searchTerm := term; selectedCategory := c; sortOrder := o;
     saveStatus := saveStatus a; hydrated := hydrated a;
     saveTimeoutRef := saveTimeoutRef a; statusTimeoutRef := statusTimeoutRef a;
     saveSeqRef := saveSeqRef a; persistCleanup := persistCleanup a |}.

Definition set_saveStatus (v : SaveStatus) (a : App) : App :=
  {| prizes := prizes a; isModalOpen := isModalOpen a; prizeToEdit := prizeToEdit a;
     searchTerm := searchTerm a; selectedCategory := selectedCategory a;
     sortOrder := sortOrder a; saveStatus := v; hydrated := hydrated a;
     saveTimeoutRef := saveTimeoutRef a; statusTimeoutRef := statusTimeoutRef a;
     saveSeqRef := saveSeqRef a; persistCleanup := persistCleanup a |}.

Definition set_hydrated (v : bool) (a : App) : App :=
  {| prizes := prizes a; isModalOpen := isModalOpen a; prizeToEdit := prizeToEdit a;
     searchTerm := searchTerm a; selectedCategory := selectedCategory a;
     sortOrder := sortOrder a; saveStatus := saveStatus a; hydrated := v;
     saveTimeoutRef := saveTimeoutRef a; statusTimeoutRef := statusTimeoutRef a;
     saveSeqRef := saveSeqRef a; persistCleanup := persistCleanup a |}.

Definition set_saveTimeoutRef (v : option positive) (a : App) : App :=
  {| prizes := prizes a; isModalOpen := isModalOpen a; prizeToEdit := prizeToEdit a;
     searchTerm := searchTerm a; selectedCategory := selectedCategory a;
     sortOrder := sortOrder a; saveStatus := saveStatus a; hydrated := hydrated a;
     saveTimeoutRef := v; statusTimeoutRef := statusTimeoutRef a;
     saveSeqRef := saveSeqRef a; persistCleanup := persistCleanup a |}.

Definition set_statusTimeoutRef (v : option positive) (a : App) : App :=
  {| prizes := prizes a; isModalOpen := isModalOpen a; prizeToEdit := prizeToEdit a;
     searchTerm := searchTerm a; selectedCategory := selectedCategory a;
     sortOrder := sortOrder a; saveStatus := saveStatus a; hydrated := hydrated a;
     saveTimeoutRef := saveTimeoutRef a; statusTimeoutRef := v;
     saveSeqRef := saveSeqRef a; persistCleanup := persistCleanup a |}.

Definition set_saveSeqRef (v : Z) (a : App) : App :=
  {| prizes := prizes a; isModalOpen := isModalOpen a; prizeToEdit := prizeToEdit a;
     searchTerm := searchTerm a; selectedCategory := selectedCategory a;
     sortOrder := sortOrder a; saveStatus := saveStatus a; hydrated := hydrated a;
     saveTimeoutRef := saveTimeoutRef a; statusTimeoutRef := statusTimeoutRef a;
     saveSeqRef := v; persistCleanup := persistCleanup a |}.

Definition set_persistCleanup (v : bool) (a : App) : App :=
  {| prizes := prizes a; isModalOpen := isModalOpen a; prizeToEdit := prizeToEdit a;
     searchTerm := searchTerm a; selectedCategory := selectedCategory a;
     sortOrder := sortOrder a; saveStatus := saveStatus a; hydrated := hydrated a;
     saveTimeoutRef := saveTimeoutRef a; statusTimeoutRef := statusTimeoutRef a;
     saveSeqRef := saveSeqRef a; persistCleanup := v |}.

Definition upd_app (f : App -> App) (w : World) : World :=
  {| app := f (app w); mounted := mounted w; now := now w; timers := timers w;
     nextHandle := nextHandle w; storage := storage w; setItemCalls := setItemCalls w |}.

Definition set_mounted (v : bool) (w : World) : World :=
  {| app := app w; mounted := v; now := now w; timers := timers w;
     nextHandle := nextHandle w; storage := storage w; setItemCalls := setItemCalls w |}.

Definition set_clock (t : Z) (pending : list Timer) (w : World) : World :=
  {| app := app w; mounted := mounted w; now := t; timers := pending;
     nextHandle := nextHandle w; storage := storage w; setItemCalls := setItemCalls w |}.

(** [window.clearTimeout(h)] *)
Definition clearTimeout (h : positive) (w : World) : World :=
  set_clock (now w) (List.filter (fun t => negb (handle t =? h)%positive) (timers w)) w.

(** [if (ref.current) window.clearTimeout(ref.current)]: a handle is a
    positive integer, hence truthy; [null] is not. *)
Definition clearRef (ref : option positive) (w : World) : World :=
  match ref with
  | Some h => clearTimeout h w
  | None => w
  end.

(** [window.setTimeout(cb, delay)]: the new handle and the host after it. *)
Definition setTimeout (cb : Callback) (delay : Z) (w : World) : positive * World :=
  (nextHandle w,
   {| app := app w; mounted := mounted w; now := now w;
      timers := timers w ++ [{| handle := nextHandle w; due := now w + delay; callback := cb |}];
      nextHandle := Pos.succ (nextHandle w);
      storage := storage w; setItemCalls := setItemCalls w |}).

Definition initialApp : App :=
  {| prizes := []; isModalOpen := false; prizeToEdit := None;
     searchTerm := ""; selectedCategory := AllCategories; sortOrder := date_desc;
     saveStatus := idle; hydrated := false;
     saveTimeoutRef := None; statusTimeoutRef := None;
     saveSeqRef := 0; persistCleanup := false |}.

(** The component just rendered for the first time, over a storage slot
    holding [stored]. *)
Definition init (stored : option string) : World :=
  {| app := initialApp; mounted := false; now := 0; timers := [];
     nextHandle := 1%positive; storage := stored; setItemCalls := [] |}.

Inductive Event :=
| Mount
| SavePrize (prize : Prize)
| DeletePrize (prizeId : string) (confirmed : bool)
| QuantityChange (prizeId : string) (newQuantity : Z)
| OpenAddModal
| OpenEditModal (prize : Prize)
| CloseModal
| SetSearchTerm (term : string)
| SetSelectedCategory (c : CategoryFilter)
| SetSortOrder (o : SortOrder)
| Tick.

Section Component.
(** Host built-ins: [JSON.parse] ([None] when it throws),
    [JSON.stringify], whether [localStorage.setItem] accepts a value (it
    throws otherwise, as when the quota is exceeded), and the reading of a
    migrated object at the type [Prize] (the assertion [as Prize[]]). *)
Variable JSON_parse : string -> option JsVal.
Variable JSON_stringify : list Prize -> string.
Variable storeAccepts : string -> bool.
Variable asPrize : JsVal -> Prize.

(** The initial-load effect. *)
Definition loadEffect (w : World) : World :=
  let w1 :=
    match storage w with
    | Some storedPrizes =>
        if (storedPrizes =? "")%string then w
        else match JSON_parse storedPrizes with
             | Some parsedPrizes =>
                 upd_app (set_prizes (map asPrize (migratePrizes parsedPrizes))) w
             | None => w
             end
    | None => w
    end in
  upd_app (set_hydrated true) w1.

(** The cleanup function returned by the persistence effect. *)
Definition persistCleanupFn (w : World) : World :=
  let w := clearRef (saveTimeoutRef (app w)) w in
  clearRef (statusTimeoutRef (app w)) w.

(** One run of the persistence effect, after a render in which [prizes] or
    [hydrated] changed: the previous run's cleanup, then the body. *)
Definition persistEffect (w : World) : World :=
  let w := if persistCleanup (app w) then persistCleanupFn w else w in
  if negb (hydrated (app w)) then upd_app (set_persistCleanup false) w
  else
    let mySeq := saveSeqRef (app w) + 1 in
    let w := upd_app (set_saveSeqRef mySeq) w in
    let w := upd_app (set_saveStatus saving) w in
    let w := clearRef (saveTimeoutRef (app w)) w in
    let w := clearRef (statusTimeoutRef (app w)) w in
    let '(h, w) := setTimeout (SaveCallback mySeq (prizes (app w))) 500 w in
    upd_app (fun a => set_persistCleanup true (set_saveTimeoutRef (Some h) a)) w.

(** [localStorage.setItem(STORAGE_KEY, text)]: the call is recorded; the
    slot takes the value when the store accepts it.  The result tells
    whether the call returned normally. *)
Definition setItem (text : string) (w : World) : bool * World :=
  (storeAccepts text,
   {| app := app w; mounted := mounted w; now := now w; timers := timers w;
      nextHandle := nextHandle w;
      storage := if storeAccepts text then Some text else storage w;
      setItemCalls := setItemCalls w ++ [text] |}).

(** Running a timer's callback. *)
Definition fire (cb : Callback) (w : World) : World :=
  match cb with
  | SaveCallback mySeq captured =>
      if negb (mySeq =? saveSeqRef (app w)) then w
      else
        let '(ok, w) := setItem (JSON_stringify captured) w in
        if ok then
          let w := upd_app (set_saveStatus saved) w in
          let '(h, w) := setTimeout StatusCallback 3000 w in
          upd_app (set_statusTimeoutRef (Some h)) w
        else upd_app (set_saveStatus idle) w
  | StatusCallback => upd_app (set_saveStatus idle) w
  end.

Definition isDue (t' : Z) (t : Timer) : bool := due t <=? t'.

(** One time unit elapses; the timers that are due run in the order in
    which they were set. *)
Definition tick (w : World) : World :=
  let t' := now w + 1 in
  let ready := List.filter (isDue t') (timers w) in
  let pending := List.filter (fun t => negb (isDue t' t)) (timers w) in
  fold_left (fun w t => fire (callback t) w) ready (set_clock t' pending w).

Definition handleCloseModal (w : World) : World := upd_app (set_modal false None) w.

Definition handleSavePrize (prize : Prize) (w : World) : World :=
  persistEffect (upd_app (fun a => set_prizes (savePrize prize (prizes a)) a) w).

(** [confirmed] is the answer of [window.confirm]. *)
Definition handleDeletePrize (prizeId : string) (confirmed : bool) (w : World) : World :=
  if confirmed then
    let editing :=
      match prizeToEdit (app w) with
      | Some p => (id p =? prizeId)%string
      | None => false
      end in
    let w := upd_app (fun a => set_prizes (deletePrize prizeId (prizes a)) a) w in
    let w := if editing then handleCloseModal w else w in
    persistEffect w
  else w.

Definition handleQuantityChange (prizeId : string) (newQuantity : Z) (w : World) : World :=
  persistEffect
    (upd_app (fun a => set_prizes (changeQuantity prizeId newQuantity (prizes a)) a) w).

(** The mount effects run once: the load, then (after the render that
    sees [hydrated]) the persistence effect.  The first run of the
    persistence effect sees [hydrated = false] and returns at once. *)
Definition mount (w : World) : World :=
  if mounted w then w else persistEffect (loadEffect (set_mounted true w)).

Definition step (e : Event) (w : World) : World :=
  match e with
  | Mount => mount w
  | SavePrize prize => handleSavePrize prize w
  | DeletePrize prizeId confirmed => handleDeletePrize prizeId confirmed w
  | QuantityChange prizeId newQuantity => handleQuantityChange prizeId newQuantity w
  | OpenAddModal => upd_app (set_modal true None) w
  | OpenEditModal prize => upd_app (set_modal true (Some prize)) w
  | CloseModal => handleCloseModal w
  | SetSearchTerm term =>
      upd_app (fun a => set_controls term (selectedCategory a) (sortOrder a) a) w
  | SetSelectedCategory c =>
      upd_app (fun a => set_controls (searchTerm a) c (sortOrder a) a) w
  | SetSortOrder o =>
      upd_app (fun a => set_controls (searchTerm a) (selectedCategory a) o a) w
  | Tick => tick w
  end.

Definition run (events : list Event) (w : World) : World :=
  fold_left (fun w e => step e w) events w.

(** The worlds passed through, the starting one included. *)
Fixpoint history (events : list Event) (w : World) : list World :=
  match events with
  | [] => [w]
  | e :: rest => w :: history rest (step e w)
  end.

Definition ticks (n : nat) (w : World) : World := Nat.iter n tick w.
End Component.

(** ** Bursts of changes *)

(** The user actions that replace the collection (each hands [setPrizes] a
    fresh array, so each re-runs the persistence effect). *)
Inductive Change :=
| Saved (prize : Prize)
| Deleted (prizeId : string)
| Requantified (prizeId : string) (newQuantity : Z).

Definition eventOf (c : Change) : Event :=
  match c with
  | Saved prize => SavePrize prize
  | Deleted prizeId => DeletePrize prizeId true
  | Requantified prizeId newQuantity => QuantityChange prizeId newQuantity
  end.

Definition applyChange (c : Change) (ps : list Prize) : list Prize :=
  match c with
  | Saved prize => savePrize prize ps
  | Deleted prizeId => deletePrize prizeId ps
  | Requantified prizeId newQuantity => changeQuantity prizeId newQuantity ps
  end.

Definition applyChanges (cs : list Change) (ps : list Prize) : list Prize :=
  fold_left (fun ps c => applyChange c ps) cs ps.

Section Burst.
Variable JSON_parse : string -> option JsVal.
Variable JSON_stringify : list Prize -> string.
Variable storeAccepts : string -> bool.
Variable asPrize : JsVal -> Prize.

(** Changes, each followed by the given number of time units. *)
Fixpoint burst (cs : list (Change * nat)) (w : World) : World :=
  match cs with
  | [] => w
  | (c, gap) :: rest =>
      burst rest
        (ticks JSON_stringify storeAccepts gap
           (step JSON_parse JSON_stringify storeAccepts asPrize (eventOf c) w))
  end.
End Burst.

(** The number of times a flag goes from [false] to [true] along a list of
    observations. *)
Fixpoint rises (bs : list bool) : nat :=
  match bs with
  | [] => 0%nat
  | b :: rest =>
      ((match b, rest with
        | false, true :: _ => 1
        | _, _ => 0
        end) + rises rest)%nat
  end.

Definition isMount (e : Event) : bool :=
  match e with
  | Mount => true
  | _ => false
  end.

Definition isSave (t : Timer) : bool :=
  match callback t with
  | SaveCallback _ _ => true
  | StatusCallback => false
  end.

(** ** A concrete host for running examples

    [toLowerCase] and [trim] agree with the browser's built-ins on ASCII
    text, [getTime] on calendar dates written [YYYY-MM-DD]; [localeCompare]
    orders by code units, which is not the collation of the ['ja'] locale (no
    example depends on the order of names).  The general theorems take the
    built-ins as parameters and do not depend on this module. *)
Module Sample.

Definition lowerChar (c : ascii) : ascii :=
  let n := nat_of_ascii c in
  if ((65 <=? n) && (n <=? 90))%nat then ascii_of_nat (n + 32) else c.

Fixpoint toLowerCase (s : string) : string :=
  match s with
  | EmptyString => EmptyString
  | String c s' => String (lowerChar c) (toLowerCase s')
  end.

Definition isSpace (c : ascii) : bool :=
  let n := nat_of_ascii c in
  ((n =? 32) || ((9 <=? n) && (n <=? 13)))%nat.

Fixpoint trimStart (s : string) : string :=
  match s with
  | EmptyString => EmptyString
  | String c s' => if isSpace c then trimStart s' else s
  end.

Definition reverse (s : string) : string :=
  string_of_list_ascii (rev (list_ascii_of_string s)).

Definition trim (s : string) : string := reverse (trimStart (reverse (trimStart s))).

Definition localeCompare (a b : string) : Z :=
  match String.compare a b with
  | Lt => -1
  | Eq => 0
  | Gt => 1
  end.

Definition digit (c : ascii) : option Z :=
  let n := Z.of_nat (nat_of_ascii c) in
  if (48 <=? n) && (n <=? 57) then Some (n - 48) else None.

Definition isLeap (y : Z) : bool :=
  ((y mod 4 =? 0) && negb (y mod 100 =? 0)) || (y mod 400 =? 0).

Definition daysInMonth (y m : Z) : Z :=
  if m =? 2 then (if isLeap y then 29 else 28)
  else if (m =? 4) || (m =? 6) || (m =? 9) || (m =? 11) then 30 else 31.

(** Days since 1970-01-01 of a date of the proleptic Gregorian calendar. *)
Definition daysFromCivil (y m d : Z) : Z :=
  let y' := if m <=? 2 then y - 1 else y in
  let era := y' / 400 in
  let yoe := y' - era * 400 in
  let doy := (153 * (if 2 <? m then m - 3 else m + 9) + 2) / 5 + d - 1 in
  let doe := yoe * 365 + yoe / 4 - yoe / 100 + doy in
  era * 146097 + doe - 719468.

(** [new Date(s).getTime()] for a date-only string, read as UTC midnight. *)
Definition getTime (s : string) : option Z :=
  match list_ascii_of_string s with
  | [y1; y2; y3; y4; sep1; m1; m2; sep2; d1; d2] =>
      match digit y1, digit y2, digit y3, digit y4, digit m1, digit m2, digit d1, digit d2 with
      | Some a, Some b, Some c, Some e, Some f, Some g, Some h, Some i =>
          let y := 1000 * a + 100 * b + 10 * c + e in
          let m := 10 * f + g in
          let d := 10 * h + i in
          if (sep1 =? "-")%char && (sep2 =? "-")%char
             && (1 <=? m) && (m <=? 12) && (1 <=? d) && (d <=? daysInMonth y m)
          then Some (daysFromCivil y m d * 86400000)
          else None
      | _, _, _, _, _, _, _, _ => None
      end
  | _ => None
  end.

Definition view := filteredAndSortedPrizes toLowerCase trim localeCompare getTime.

(** A serializer in the manner of [JSON.stringify] for records built by the
    form (keys in the order of [handleSubmit], absent optional fields left
    out, quotes and backslashes escaped). *)
Definition doubleQuote : ascii := ascii_of_nat 34.
Definition backslash : ascii := ascii_of_nat 92.

Fixpoint escape (s : string) : string :=
  match s with
  | EmptyString => EmptyString
  | String c s' =>
      if (c =? doubleQuote)%char || (c =? backslash)%char
      then String backslash (String c (escape s'))
      else String c (escape s')
  end.

Definition quote (s : string) : string :=
  String doubleQuote (escape s) ++ String doubleQuote EmptyString.

Definition categoryText (c : PrizeCategory) : string :=
  match c with
  | Mascot => "マスコット"
  | Plush => "ぬいぐるみ"
  | Figure => "フィギュア"
  | OtherCategory => "その他"
  end.

Definition manufacturerText (m : Manufacturer) : string :=
  match m with
  | Unspecified => "指定なし"
  | BandaiNamco => "バンダイナムコ"
  | Taito => "タイトー"
  | SegaFave => "SEGA FAVE"
  | FuRyu => "FuRyu"
  | Parade => "Parade"
  | SK => "SK"
  | OtherMaker => "その他"
  end.

Definition field (k v : string) : string := quote k ++ ":" ++ v.

Definition optional (k : string) (v : option string) : string :=
  match v with
  | Some text => "," ++ field k (quote text)
  | None => ""
  end.

Definition stringifyPrize (p : Prize) : string :=
  "{" ++ field "id" (quote (id p))
      ++ "," ++ field "name" (quote (name p))
      ++ "," ++ field "quantity" (NilEmpty.string_of_int (Z.to_int (quantity p)))
      ++ "," ++ field "acquisitionDate" (quote (acquisitionDate p))
      ++ "," ++ field "category" (quote (categoryText (category p)))
      ++ optional "manufacturer" (manufacturerText <$> manufacturer p)
      ++ optional "photo" (photo p)
      ++ optional "notes" (notes p)
      ++ "}".

Definition stringify (ps : list Prize) : string :=
  "[" ++ String.concat "," (map stringifyPrize ps) ++ "]".

(** A host whose storage holds nothing readable and accepts every write. *)
Definition parse (text : string) : option JsVal := None.
Definition accepts (text : string) : bool := true.
Definition asPrize (v : JsVal) : Prize :=
  {| id := ""; name := ""; category := OtherCategory; manufacturer := None;
     quantity := 1; acquisitionDate := ""; photo := None; notes := None |}.

Definition step := step parse stringify accepts asPrize.
Definition run := run parse stringify accepts asPrize.
Definition tick := tick stringify accepts.
Definition ticks := ticks stringify accepts.

Definition prize (i n d : string) (c : PrizeCategory) (q : Z) : Prize :=
  {| id := i; name := n; category := c; manufacturer := None; quantity := q;
     acquisitionDate := d; photo := None; notes := None |}.

End Sample.

(** ** Vocabulary of the statements *)

(** The fate of one kept element [p], read off its migrated record [r]. *)
Definition normalized (p r : JsVal) : Prop :=
  truthy p = true
  /\ getProp "category" r
     = (if truthy (getProp "category" p) then getProp "category" p
        else JStr fallbackCategory)
  /\ getProp "quantity" r
     = (if nullish (getProp "quantity" p) then num 1 else getProp "quantity" p)
  /\ (getProp "quantity" p = num 0 -> getProp "quantity" r = num 0)
  /\ (forall k, k <> "category" -> k <> "quantity" ->
       assoc k (ownProps r) = assoc k (ownProps p)).

(** The time value of a record's acquisition date (0 stands in for [NaN];
    the statements that use it assume that every date parses). *)
Definition dateOf (getTime : string -> option Z) (p : Prize) : Z :=
  default 0 (getTime (acquisitionDate p)).

Definition validDate (getTime : string -> option Z) (p : Prize) : Prop :=
  is_Some (getTime (acquisitionDate p)).

Definition selects (selectedCategory : CategoryFilter) (p : Prize) : Prop :=
  selectedCategory = AllCategories \/ selectedCategory = Only (category p).

(** What [clearTimeout] through a ref leaves of a timer queue. *)
Definition cancel (ref : option positive) (l : list Timer) : list Timer :=
  match ref with
  | Some h => List.filter (fun t => negb (handle t =? h)%positive) l
  | None => l
  end.

(** The queue after the cancellations of one run of the persistence effect
    (those of the previous run's cleanup, then those of the body). *)
Definition cancelAll (a : App) (l : list Timer) : list Timer :=
  let l1 :=
    if persistCleanup a then cancel (statusTimeoutRef a) (cancel (saveTimeoutRef a) l)
    else l in
  cancel (statusTimeoutRef a) (cancel (saveTimeoutRef a) l1).

Definition pendingSaves (w : World) : list Timer := List.filter isSave (timers w).

(** The values a timer's callback passes to [setItem] when it runs while
    the generation counter reads [seq]. *)
Definition writesOf (JSON_stringify : list Prize -> string) (seq : Z) (t : Timer)
  : list string :=
  match callback t with
  | SaveCallback mySeq captured => if mySeq =? seq then [JSON_stringify captured] else []
  | StatusCallback => []
  end.

(** The storage slot after a series of [setItem] calls. *)
Definition storeAfter (storeAccepts : string -> bool) (texts : list string)
    (slot : option string) : option string :=
  fold_left (fun slot text => if storeAccepts text then Some text else slot) texts slot.

(** Every pending write is the one the ref [saveTimeoutRef] points to. *)
Definition tracked (w : World) : Prop :=
  forall t, In t (timers w) -> isSave t = true ->
    hydrated (app w) = true /\ saveTimeoutRef (app w) = Some (handle t).

(** Exactly one write is pending, due at [d]; it is the one held by
    [saveTimeoutRef] and carries the current generation and collection. *)
Definition armed (w : World) (d : Z) : Prop :=
  hydrated (app w) = true
  /\ exists h,
       saveTimeoutRef (app w) = Some h
       /\ pendingSaves w
          = [{| handle := h; due := d;
                callback := SaveCallback (saveSeqRef (app w)) (prizes (app w)) |}].

(** Hydrated, with no write pending. *)
Definition quiet (w : World) : Prop :=
  hydrated (app w) = true /\ pendingSaves w = [].

(** Before the mount effects: nothing loaded, scheduled or written. *)
Definition dormant (stored : option string) (w : World) : Prop :=
  hydrated (app w) = false /\ mounted w = false /\ timers w = []
  /\ setItemCalls w = [] /\ storage w = stored.


(** The state a change leaves when its handler returns, before the
    persistence effect runs. *)
Definition staged (c : Change) (w : World) : World :=
  match c with
  | Saved prize => upd_app (fun a => set_prizes (savePrize prize (prizes a)) a) w
  | Deleted prizeId =>
      let editing :=
        match prizeToEdit (app w) with
        | Some p => (id p =? prizeId)%string
        | None => false
        end in
      let w := upd_app (fun a => set_prizes (deletePrize prizeId (prizes a)) a) w in
      if editing then upd_app (set_modal false None) w else w
  | Requantified prizeId newQuantity =>
      upd_app (fun a => set_prizes (changeQuantity prizeId newQuantity (prizes a)) a) w
  end.

(** The part of the state that no timer callback touches. *)
Definition core (w : World) : list Prize * bool * option positive * Z * bool :=
  (prizes (app w), hydrated (app w), saveTimeoutRef (app w), saveSeqRef (app w), mounted w).

(** Same collection, flags and refs, and nothing written in between. *)
Definition sameData (w' w : World) : Prop :=
  core w' = core w /\ setItemCalls w' = setItemCalls w /\ storage w' = storage w.

(** After the mount effects: hydrated, with at most one write pending. *)
Definition live (w : World) : Prop :=
  mounted w = true /\ ((exists d, armed w d) \/ quiet w).

Definition settled (stored : option string) (w : World) : Prop :=
  dormant stored w \/ live w.

(** ** Further vocabulary *)

(** A stored record as the current version writes it: an object with a
    truthy category and a quantity that is present. *)
Definition complete (p : JsVal) : Prop :=
  (exists props, p = JObj props)
  /\ truthy (getProp "category" p) = true
  /\ nullish (getProp "quantity" p) = false.

(** The collection after a submission of the form, whose [onSave] is
    [handleSavePrize]: a rejected submission saves nothing. *)
Definition submitInto (prizeToEdit : option Prize) (freshId : string)
    (s : PrizeFormModal.State) (l : list Prize) : list Prize :=
  match (PrizeFormModal.handleSubmit prizeToEdit freshId s).2 with
  | Some prize => savePrize prize l
  | None => l
  end.

(** Teardown: React runs the cleanup that the last run of the persistence
    effect returned, if it returned one. *)
Definition unmount (w : World) : World :=
  if persistCleanup (app w) then persistCleanupFn w else w.

(** The events that do not replace the collection. *)
Definition passive (e : Event) : bool :=
  match e with
  | SavePrize _ | QuantityChange _ _ => false
  | DeletePrize _ confirmed => negb confirmed
  | _ => true
  end.

(** The time units that pass during a list of events. *)
Fixpoint elapsed (events : list Event) : Z :=
  match events with
  | [] => 0
  | Tick :: rest => 1 + elapsed rest
  | _ :: rest => elapsed rest
  end.

(** Mounted and hydrated, the persistence effect having run. *)
Definition running (w : World) : Prop :=
  mounted w = true /\ hydrated (app w) = true /\ persistCleanup (app w) = true.

(** The three phases of a running component: a write pending, due at [d];
    the last write done and shown as saved until [d]; nothing pending. *)
Definition savingAt (w : World) (d : Z) : Prop :=
  running w /\ saveStatus (app w) = saving
  /\ now w < d <= now w + 500
  /\ exists h,
       saveTimeoutRef (app w) = Some h
       /\ timers w
          = [{| handle := h; due := d;
                callback := SaveCallback (saveSeqRef (app w)) (prizes (app w)) |}].

Definition savedUntil (JSON_stringify : list Prize -> string) (w : World) (d : Z) : Prop :=
  running w /\ saveStatus (app w) = saved
  /\ now w < d <= now w + 3000
  /\ storage w = Some (JSON_stringify (prizes (app w)))
  /\ exists h,
       statusTimeoutRef (app w) = Some h
       /\ timers w = [{| handle := h; due := d; callback := StatusCallback |}].

Definition resting (w : World) : Prop :=
  running w /\ saveStatus (app w) = idle /\ timers w = [].

(** Before the mount effects. *)
Definition unloaded (stored : option string) (w : World) : Prop :=
  dormant stored w /\ saveStatus (app w) = idle /\ persistCleanup (app w) = false.

Definition phased (JSON_stringify : list Prize -> string) (stored : option string)
    (w : World) : Prop :=
  unloaded stored w
  \/ (exists d, savingAt w d)
  \/ (exists d, savedUntil JSON_stringify w d)
  \/ resting w.

(** Every pending timer is held by one of the two refs. *)
Definition refsCover (w : World) : Prop :=
  forall t, In t (timers w) ->
    saveTimeoutRef (app w) = Some (handle t) \/ statusTimeoutRef (app w) = Some (handle t).

(** Two worlds that differ at most in the form and the list controls. *)
Definition sameShape (w' w : World) : Prop :=
  core w' = core w /\ timers w' = timers w /\ now w' = now w
  /\ saveStatus (app w') = saveStatus (app w)
  /\ statusTimeoutRef (app w') = statusTimeoutRef (app w)
  /\ persistCleanup (app w') = persistCleanup (app w)
  /\ storage w' = storage w /\ setItemCalls w' = setItemCalls w.

(** ** The older component ([src/App.tsx])

    It has no flags, refs or timers: it writes the collection to the store
    in an effect that runs after the first render and after every change
    of the collection.  It is modelled over the same records; the fields it
    does not have keep their initial values. *)
Module Legacy.

(** The migration inlined in the load effect,
    [parsedPrizes.map(p => ({ ...p, category: ..., quantity: ... }))];
    [None] when it throws: [parsedPrizes] is not an array and has no [map],
    or an element is [null] and [p.category] cannot be read. *)
Definition migrate (parsedPrizes : JsVal) : option (list JsVal) :=
  match parsedPrizes with
  | JArr elems =>
      if forallb (fun p => negb (nullish p)) elems then Some (map migrateOne elems)
      else None
  | _ => None
  end.

Inductive Action :=
| SavePrize (prize : Prize)
| DeletePrize (prizeId : string)
| QuantityChange (prizeId : string) (newQuantity : Z)
| OpenAddModal
| OpenEditModal (prize : Prize)
| CloseModal
| SetSearchTerm (term : string)
| SetSelectedCategory (c : CategoryFilter)
| SetSortOrder (o : SortOrder).

Section Component.
Variable JSON_parse : string -> option JsVal.
Variable JSON_stringify : list Prize -> string.
Variable storeAccepts : string -> bool.
Variable asPrize : JsVal -> Prize.

(** What the load effect hands to [setPrizes]; [None] when it does not get
    there (nothing stored, or an exception caught). *)
Definition load (w : World) : option (list Prize) :=
  match storage w with
  | Some storedPrizes =>
      if (storedPrizes =? "")%string then None
      else match JSON_parse storedPrizes with
           | Some parsedPrizes => map asPrize <$> migrate parsedPrizes
           | None => None
           end
  | None => None
  end.

(** The save effect: [localStorage.setItem(..., JSON.stringify(prizes))]
    inside [try]. *)
Definition saveEffect (w : World) : World :=
  (setItem storeAccepts (JSON_stringify (prizes (app w))) w).2.

(** The two effects after the first render, both seeing the collection of
    that render: the load reads the slot, the save writes the collection;
    when the load has set the collection, the next render's save effect
    writes it. *)
Definition mount (w : World) : World :=
  let loaded := load w in
  let w := saveEffect w in
  match loaded with
  | Some migratedPrizes => saveEffect (upd_app (set_prizes migratedPrizes) w)
  | None => w
  end.

Definition handleSavePrize (prize : Prize) (w : World) : World :=
  saveEffect
    (upd_app (fun a => set_modal false None (set_prizes (savePrize prize (prizes a)) a)) w).

Definition handleDeletePrize (prizeId : string) (w : World) : World :=
  saveEffect (upd_app (fun a => set_prizes (deletePrize prizeId (prizes a)) a) w).

Definition handleQuantityChange (prizeId : string) (newQuantity : Z) (w : World) : World :=
  saveEffect
    (upd_app (fun a => set_prizes (changeQuantity prizeId newQuantity (prizes a)) a) w).

Definition step (a : Action) (w : World) : World :=
  match a with
  | SavePrize prize => handleSavePrize prize w
  | DeletePrize prizeId => handleDeletePrize prizeId w
  | QuantityChange prizeId newQuantity => handleQuantityChange prizeId newQuantity w
  | OpenAddModal => upd_app (set_modal true None) w
  | OpenEditModal prize => upd_app (set_modal true (Some prize)) w
  | CloseModal => upd_app (set_modal false None) w
  | SetSearchTerm term =>
      upd_app (fun a => set_controls term (selectedCategory a) (sortOrder a) a) w
  | SetSelectedCategory c =>
      upd_app (fun a => set_controls (searchTerm a) c (sortOrder a) a) w
  | SetSortOrder o =>
      upd_app (fun a => set_controls (searchTerm a) (selectedCategory a) o a) w
  end.

(** The component mounted over a slot holding [stored], then driven by the
    given actions. *)
Definition run (stored : option string) (actions : list Action) : World :=
  fold_left (fun w a => step a w) actions (mount (init stored)).
End Component.

End Legacy.


(** * Properties *)

(** ** Migration *)

Section MigrationFacts.
Implicit Types (k : string) (v : JsVal) (props : list (string * JsVal)).

Lemma assoc_setProp_same k v props : assoc k (setProp k v props) = Some v.
Proof.
  induction props as [|[k' v'] rest IH]; simpl.
  - now rewrite String.eqb_refl.
  - destruct (k' =? k)%string eqn:E; simpl.
    + now rewrite String.eqb_refl.
    + now rewrite E.
Qed.

Lemma assoc_setProp_other k k' v props :
  k <> k' -> assoc k' (setProp k v props) = assoc k' props.
Proof.
  intros Hne. induction props as [|[k0 v0] rest IH]; simpl.
  - apply String.eqb_neq in Hne. now rewrite Hne.
  - destruct (k0 =? k)%string eqn:E; simpl.
    + apply String.eqb_eq in E. subst k0.
      apply String.eqb_neq in Hne. now rewrite Hne.
    + now rewrite IH.
Qed.

Lemma setProp_id k v props : assoc k props = Some v -> setProp k v props = props.
Proof.
  induction props as [|[k' v'] rest IH]; simpl; [discriminate|].
  destruct (k' =? k)%string eqn:E.
  - intros [= ->]. apply String.eqb_eq in E. now subst.
  - intros H. now rewrite IH.
Qed.

Lemma getProp_obj k props : getProp k (JObj props) = default JUndefined (assoc k props).
Proof. reflexivity. Qed.

Lemma truthy_or_else a b : truthy b = true -> truthy (or_else a b) = true.
Proof. unfold or_else. destruct (truthy a) eqn:E; auto. Qed.

Lemma nullish_coalesce a b : nullish b = false -> nullish (coalesce a b) = false.
Proof. unfold coalesce. destruct (nullish a) eqn:E; auto. Qed.

Lemma or_else_truthy a b : truthy a = true -> or_else a b = a.
Proof. unfold or_else. now intros ->. Qed.

Lemma coalesce_present a b : nullish a = false -> coalesce a b = a.
Proof. unfold coalesce. now intros ->. Qed.

Lemma migrateOne_category p :
  getProp "category" (migrateOne p)
  = or_else (getProp "category" p) (JStr fallbackCategory).
Proof.
  unfold migrateOne. rewrite getProp_obj.
  rewrite assoc_setProp_other by discriminate.
  now rewrite assoc_setProp_same.
Qed.

Lemma migrateOne_quantity p :
  getProp "quantity" (migrateOne p) = coalesce (getProp "quantity" p) (num 1).
Proof. unfold migrateOne. rewrite getProp_obj. now rewrite assoc_setProp_same. Qed.

Lemma migrateOne_others p k :
  k <> "category" -> k <> "quantity" ->
  assoc k (ownProps (migrateOne p)) = assoc k (ownProps p).
Proof.
  intros Hc Hq. unfold migrateOne. simpl ownProps.
  rewrite assoc_setProp_other by congruence.
  now rewrite assoc_setProp_other by congruence.
Qed.

Lemma migrateOne_truthy p : truthy (migrateOne p) = true.
Proof. reflexivity. Qed.

Lemma migrateOne_idempotent p : migrateOne (migrateOne p) = migrateOne p.
Proof.
  set (r := migrateOne p).
  unfold migrateOne at 1.
  assert (Hc : assoc "category" (ownProps r) = Some (getProp "category" r)).
  { subst r. unfold migrateOne at 2. rewrite getProp_obj. simpl ownProps.
    rewrite assoc_setProp_other by discriminate.
    now rewrite assoc_setProp_same. }
  assert (Hq : assoc "quantity" (ownProps r) = Some (getProp "quantity" r)).
  { subst r. unfold migrateOne at 2. rewrite getProp_obj. simpl ownProps.
    now rewrite assoc_setProp_same. }
  rewrite (or_else_truthy (getProp "category" r)).
  2:{ subst r. rewrite migrateOne_category. now apply truthy_or_else. }
  rewrite (coalesce_present (getProp "quantity" r)).
  2:{ subst r. rewrite migrateOne_quantity. now apply nullish_coalesce. }
  rewrite (setProp_id "category") by exact Hc.
  rewrite (setProp_id "quantity") by exact Hq.
  reflexivity.
Qed.

Lemma filter_truthy_migrated (l : list JsVal) :
  List.filter truthy (map migrateOne l) = map migrateOne l.
Proof. induction l as [|p l IH]; simpl; [reflexivity|now rewrite IH]. Qed.
End MigrationFacts.

(** C3, as stated, fails: an element that is neither [null] nor [undefined]
    but falsy (here the number 0) is dropped by [filter(Boolean)]. *)
Lemma migratePrizes_drops_falsy_element :
  let elems := [num 0] in
  Forall (fun p => nullish p = false) elems
  /\ migratePrizes (JArr elems) = []
  /\ length (migratePrizes (JArr elems))
     <> length (List.filter (fun p => negb (nullish p)) elems).
Proof. repeat split; [repeat constructor | discriminate]. Qed.

(** C3 (amended): the migration returns the empty sequence for an input that
    is not an array; for an array it keeps, in order, exactly the truthy
    elements, and in each kept record a falsy category becomes ['その他'], a
    [null] or [undefined] quantity becomes 1, an explicit quantity 0 stays
    0, and every other property is carried over. *)
Theorem migratePrizes_normalizes :
  (forall parsed, Array_isArray parsed = false -> migratePrizes parsed = [])
  /\ (forall elems,
        Forall2 normalized (List.filter truthy elems) (migratePrizes (JArr elems))).
Proof.
  split.
  - intros [] H; try reflexivity. discriminate.
  - intros elems. unfold migratePrizes. simpl.
    induction elems as [|p l IH]; simpl; [constructor|].
    destruct (truthy p) eqn:Hp; simpl; [|exact IH].
    constructor; [|exact IH].
    unfold normalized. rewrite migrateOne_category, migrateOne_quantity.
    repeat split; auto.
    + intros H0. rewrite H0. reflexivity.
    + intros k Hc Hq. now apply migrateOne_others.
Qed.

Lemma migratePrizes_normalizes_witness :
  migratePrizes (JStr "[]") = []
  /\ Forall2 normalized
       (List.filter truthy [JNull; JObj [("id", JStr "a"); ("quantity", num 0)]])
       (migratePrizes (JArr [JNull; JObj [("id", JStr "a"); ("quantity", num 0)]])).
Proof.
  split.
  - apply (proj1 migratePrizes_normalizes). reflexivity.
  - apply (proj2 migratePrizes_normalizes).
Defined.

(** C10: migration is idempotent; migrating the array of already migrated
    records returns them unchanged. *)
Theorem migratePrizes_idempotent (elems : list JsVal) :
  migratePrizes (JArr (migratePrizes (JArr elems))) = migratePrizes (JArr elems).
Proof.
  unfold migratePrizes. simpl. rewrite filter_truthy_migrated, map_map.
  apply map_ext. intros p. apply migrateOne_idempotent.
Qed.

(** ** Saving a record *)

Lemma findIndex_lower (prizeId : string) (l : list Prize) : -1 <= findIndex prizeId l.
Proof.
  induction l as [|p l IH]; simpl; [lia|].
  destruct (id p =? prizeId)%string; [lia|].
  destruct (findIndex prizeId l =? -1) eqn:E; lia.
Qed.

Lemma findIndex_absent (prizeId : string) (l : list Prize) :
  findIndex prizeId l = -1 <-> ~ In prizeId (map id l).
Proof.
  induction l as [|p l IH]; simpl; [tauto|].
  pose proof (findIndex_lower prizeId l) as Hlo.
  destruct (id p =? prizeId)%string eqn:E.
  - apply String.eqb_eq in E. split; [discriminate|tauto].
  - apply String.eqb_neq in E.
    destruct (findIndex prizeId l =? -1) eqn:E1.
    + apply Z.eqb_eq in E1. split; [|reflexivity]. intros _ [H|H]; tauto.
    + apply Z.eqb_neq in E1. split; [lia|]. intros H. exfalso. apply E1, IH. tauto.
Qed.

Lemma findIndex_first (prizeId : string) (l : list Prize) :
  findIndex prizeId l <> -1 ->
  exists old, l !! Z.to_nat (findIndex prizeId l) = Some old
    /\ id old = prizeId
    /\ forall (j : nat) p, (j < Z.to_nat (findIndex prizeId l))%nat ->
         l !! j = Some p -> id p <> prizeId.
Proof.
  induction l as [|p l IH]; simpl; [congruence|].
  pose proof (findIndex_lower prizeId l) as Hlo.
  destruct (id p =? prizeId)%string eqn:E.
  - intros _. exists p. apply String.eqb_eq in E. repeat split; auto.
    intros j q Hj. simpl in Hj. lia.
  - apply String.eqb_neq in E.
    destruct (findIndex prizeId l =? -1) eqn:E1; [congruence|].
    apply Z.eqb_neq in E1. intros _.
    destruct (IH E1) as (old & Hold & Hid & Hfirst).
    replace (Z.to_nat (findIndex prizeId l + 1)) with (S (Z.to_nat (findIndex prizeId l)))
      by lia.
    exists old. repeat split; auto.
    intros [|j] q Hj; simpl.
    + now intros [= <-].
    + intros Hq. apply (Hfirst j q); [lia|exact Hq].
Qed.

(** C4: saving a record whose identifier occurs in the collection replaces
    the record at the first position holding that identifier, in place: same
    index, same identifier, same length, every other position untouched.
    Saving a record whose identifier does not occur appends it at the end,
    after the prior records. *)
Theorem savePrize_replaces_in_place_or_appends (prize : Prize) (prevPrizes : list Prize) :
  (In (id prize) (map id prevPrizes) ->
   exists (i : nat) old,
     prevPrizes !! i = Some old
     /\ id old = id prize
     /\ (forall (j : nat) p, (j < i)%nat -> prevPrizes !! j = Some p -> id p <> id prize)
     /\ savePrize prize prevPrizes = <[i := prize]> prevPrizes
     /\ savePrize prize prevPrizes !! i = Some prize
     /\ length (savePrize prize prevPrizes) = length prevPrizes
     /\ (forall j : nat, j <> i -> savePrize prize prevPrizes !! j = prevPrizes !! j))
  /\ (~ In (id prize) (map id prevPrizes) ->
      savePrize prize prevPrizes = prevPrizes ++ [prize]).
Proof.
  unfold savePrize. pose proof (findIndex_lower (id prize) prevPrizes) as Hlo.
  split.
  - intros Hin.
    assert (Hne : findIndex (id prize) prevPrizes <> -1).
    { intros H. apply findIndex_absent in H. contradiction. }
    destruct (findIndex_first _ _ Hne) as (old & Hold & Hid & Hfirst).
    replace (findIndex (id prize) prevPrizes >? -1) with true
      by (symmetry; apply Z.gtb_lt; lia).
    exists (Z.to_nat (findIndex (id prize) prevPrizes)), old.
    repeat split; auto.
    + apply list_lookup_insert_eq. eapply lookup_lt_Some; eauto.
    + apply length_insert.
    + intros j Hj. apply list_lookup_insert_ne. congruence.
  - intros Hnot. apply findIndex_absent in Hnot. rewrite Hnot. reflexivity.
Qed.

Lemma savePrize_replaces_in_place_or_appends_witness :
  (exists (i : nat) old,
     [Sample.prize "a" "Bear" "2024-01-01" Plush 1;
      Sample.prize "b" "Robot" "2024-02-01" Figure 2] !! i = Some old
     /\ id old = "b"
     /\ savePrize (Sample.prize "b" "Robot II" "2024-02-01" Figure 5)
          [Sample.prize "a" "Bear" "2024-01-01" Plush 1;
           Sample.prize "b" "Robot" "2024-02-01" Figure 2]
        = [Sample.prize "a" "Bear" "2024-01-01" Plush 1;
           Sample.prize "b" "Robot II" "2024-02-01" Figure 5])
  /\ savePrize (Sample.prize "c" "Cat" "2024-03-01" Mascot 1)
       [Sample.prize "a" "Bear" "2024-01-01" Plush 1]
     = [Sample.prize "a" "Bear" "2024-01-01" Plush 1;
        Sample.prize "c" "Cat" "2024-03-01" Mascot 1].
Proof.
  split.
  - destruct (proj1 (savePrize_replaces_in_place_or_appends
                       (Sample.prize "b" "Robot II" "2024-02-01" Figure 5)
                       [Sample.prize "a" "Bear" "2024-01-01" Plush 1;
                        Sample.prize "b" "Robot" "2024-02-01" Figure 2]))
      as (i & old & Hold & Hid & _ & _ & _ & _ & _).
    + simpl. auto.
    + exists i, old. repeat split; auto.
  - apply (proj2 (savePrize_replaces_in_place_or_appends
                    (Sample.prize "c" "Cat" "2024-03-01" Mascot 1)
                    [Sample.prize "a" "Bear" "2024-01-01" Plush 1])).
    simpl. intros [H|[]]. discriminate.
Defined.

(** ** Deleting a record *)

Lemma persistEffect_keeps (w : World) :
  prizes (app (persistEffect w)) = prizes (app w)
  /\ isModalOpen (app (persistEffect w)) = isModalOpen (app w)
  /\ prizeToEdit (app (persistEffect w)) = prizeToEdit (app w)
  /\ hydrated (app (persistEffect w)) = hydrated (app w)
  /\ searchTerm (app (persistEffect w)) = searchTerm (app w)
  /\ selectedCategory (app (persistEffect w)) = selectedCategory (app w)
  /\ sortOrder (app (persistEffect w)) = sortOrder (app w)
  /\ mounted (persistEffect w) = mounted w
  /\ now (persistEffect w) = now w
  /\ storage (persistEffect w) = storage w
  /\ setItemCalls (persistEffect w) = setItemCalls w.
Proof.
  destruct w as [[ps mo pe st sc so ss hy sr tr sq pc] mt nw ts nh sg cl].
  unfold persistEffect, persistCleanupFn.
  destruct pc, hy, sr, tr; simpl; repeat split; reflexivity.
Qed.

Lemma deletePrize_absent (prizeId : string) (l : list Prize) :
  ~ In prizeId (map id l) -> deletePrize prizeId l = l.
Proof.
  unfold deletePrize.
  induction l as [|p l IH]; simpl; [reflexivity|].
  intros H. destruct (id p =? prizeId)%string eqn:E; simpl.
  - apply String.eqb_eq in E. tauto.
  - rewrite IH; [reflexivity|tauto].
Qed.

Lemma deletePrize_unique (prizeId : string) (l : list Prize) :
  NoDup (map id l) -> In prizeId (map id l) ->
  exists before p after,
    l = before ++ p :: after /\ id p = prizeId
    /\ deletePrize prizeId l = before ++ after.
Proof.
  unfold deletePrize.
  induction l as [|p l IH]; simpl; [tauto|].
  intros Hnd Hin. inversion Hnd as [|x xs Hnotin Hnd']; subst.
  destruct (id p =? prizeId)%string eqn:E; simpl.
  - apply String.eqb_eq in E. exists [], p, l. repeat split; auto.
    simpl. apply deletePrize_absent. rewrite <- E.
    intros H. apply Hnotin. now apply list_elem_of_In.
  - apply String.eqb_neq in E. destruct Hin as [Hin|Hin]; [contradiction|].
    destruct (IH Hnd' Hin) as (before & q & after & Hl & Hq & Hdel).
    exists (p :: before), q, after. repeat split; auto.
    + simpl. now rewrite Hl.
    + simpl. now rewrite Hdel.
Qed.

(** C5: the deletion acts on the answer to the confirmation prompt.  A
    declined prompt leaves the whole state as it was.  An accepted one, in a
    collection with unique identifiers that holds the identifier, removes
    exactly the one record carrying it and keeps the others in order; it
    closes the form when the record open in the form is the deleted one, and
    leaves the form alone otherwise. *)
Theorem handleDeletePrize_confirmation (prizeId : string) (w : World) :
  handleDeletePrize prizeId false w = w
  /\ (NoDup (map id (prizes (app w))) -> In prizeId (map id (prizes (app w))) ->
      exists before p after,
        prizes (app w) = before ++ p :: after
        /\ id p = prizeId
        /\ prizes (app (handleDeletePrize prizeId true w)) = before ++ after)
  /\ (forall p, prizeToEdit (app w) = Some p -> id p = prizeId ->
      isModalOpen (app (handleDeletePrize prizeId true w)) = false
      /\ prizeToEdit (app (handleDeletePrize prizeId true w)) = None)
  /\ ((forall p, prizeToEdit (app w) = Some p -> id p <> prizeId) ->
      isModalOpen (app (handleDeletePrize prizeId true w)) = isModalOpen (app w)
      /\ prizeToEdit (app (handleDeletePrize prizeId true w)) = prizeToEdit (app w)).
Proof.
  split; [reflexivity|].
  unfold handleDeletePrize.
  split; [|split].
  - intros Hnd Hin.
    destruct (deletePrize_unique prizeId _ Hnd Hin) as (before & p & after & Hl & Hp & Hdel).
    exists before, p, after. repeat split; auto.
    destruct (persistEffect_keeps
      (let w0 := upd_app (fun a => set_prizes (deletePrize prizeId (prizes a)) a) w in
       if match prizeToEdit (app w) with
          | Some p0 => (id p0 =? prizeId)%string
          | None => false
          end
       then handleCloseModal w0 else w0)) as (Hps & _).
    cbv zeta in Hps. rewrite Hps.
    destruct (match prizeToEdit (app w) with
              | Some p0 => (id p0 =? prizeId)%string
              | None => false
              end); simpl; exact Hdel.
  - intros p Hp Hid. rewrite Hp. subst prizeId. rewrite String.eqb_refl.
    destruct (persistEffect_keeps
      (handleCloseModal
         (upd_app (fun a => set_prizes (deletePrize (id p) (prizes a)) a) w)))
      as (_ & Hopen & Hedit & _).
    rewrite Hopen, Hedit. split; reflexivity.
  - intros Hother.
    assert (E : match prizeToEdit (app w) with
                | Some p0 => (id p0 =? prizeId)%string
                | None => false
                end = false).
    { destruct (prizeToEdit (app w)) as [p0|] eqn:Hp; [|reflexivity].
      apply String.eqb_neq. now apply Hother. }
    rewrite E.
    destruct (persistEffect_keeps
      (upd_app (fun a => set_prizes (deletePrize prizeId (prizes a)) a) w))
      as (_ & Hopen & Hedit & _).
    rewrite Hopen, Hedit. split; reflexivity.
Qed.

Lemma handleDeletePrize_confirmation_witness :
  let a := Sample.prize "a" "Bear" "2024-01-01" Plush 1 in
  let b := Sample.prize "b" "Robot" "2024-02-01" Figure 2 in
  let w := upd_app (fun x => set_modal true (Some b) (set_prizes [a; b] x)) (init None) in
  (exists before p after,
     [a; b] = before ++ p :: after /\ id p = "b"
     /\ prizes (app (handleDeletePrize "b" true w)) = before ++ after)
  /\ isModalOpen (app (handleDeletePrize "b" true w)) = false
  /\ isModalOpen (app (handleDeletePrize "a" true w)) = true.
Proof.
  intros a b w.
  destruct (handleDeletePrize_confirmation "b" w) as (_ & Hdel & Hclose & _).
  destruct (handleDeletePrize_confirmation "a" w) as (_ & _ & _ & Hkeep).
  split; [|split].
  - apply Hdel.
    + simpl. repeat constructor; rewrite list_elem_of_In; simpl; intuition discriminate.
    + simpl. auto.
  - apply (Hclose b); reflexivity.
  - apply Hkeep. intros p [= <-]. discriminate.
Defined.

(** ** Seeding the form *)

Lemma resetForm_adding (today : string) :
  PrizeFormModal.resetForm None today
  = {| PrizeFormModal.name := "";
       PrizeFormModal.quantity := 1;
       PrizeFormModal.acquisitionDate := today;
       PrizeFormModal.photo := "";
       PrizeFormModal.notes := "";
       PrizeFormModal.category := OtherCategory;
       PrizeFormModal.manufacturer := Unspecified;
       PrizeFormModal.error := "" |}.
Proof. reflexivity. Qed.

(** X19: for a record opened for editing whose quantity is not 0 and whose
    date is not empty, the buffer is seeded with the record's name,
    quantity, date and category, and with its photo, notes and manufacturer
    or, where the record has none, the empty string and ['指定なし']. *)
Lemma resetForm_editing (p : Prize) (today : string) :
  quantity p <> 0 -> acquisitionDate p <> "" ->
  let buffer := PrizeFormModal.resetForm (Some p) today in
  PrizeFormModal.name buffer = name p
  /\ PrizeFormModal.quantity buffer = quantity p
  /\ PrizeFormModal.acquisitionDate buffer = acquisitionDate p
  /\ PrizeFormModal.photo buffer = default "" (photo p)
  /\ PrizeFormModal.notes buffer = default "" (notes p)
  /\ PrizeFormModal.category buffer = category p
  /\ PrizeFormModal.manufacturer buffer = default Unspecified (manufacturer p).
Proof.
  intros Hq Hd. simpl. unfold PrizeFormModal.string_or, PrizeFormModal.number_or.
  apply Z.eqb_neq in Hq. apply String.eqb_neq in Hd. rewrite Hq, Hd.
  repeat split.
  - destruct (name p =? "")%string eqn:E; [|reflexivity].
    apply String.eqb_eq in E. now rewrite E.
  - destruct (photo p) as [s|]; simpl; [|reflexivity].
    destruct (s =? "")%string eqn:E; [|reflexivity].
    apply String.eqb_eq in E. now rewrite E.
  - destruct (notes p) as [s|]; simpl; [|reflexivity].
    destruct (s =? "")%string eqn:E; [|reflexivity].
    apply String.eqb_eq in E. now rewrite E.
Qed.

(** C9: the form's edit buffer should be seeded from the field values of the
    record opened for editing.  For the quantity the code reads
    [prizeToEdit?.quantity || 1], so for every record whose quantity is 0
    the buffer is seeded with quantity 1, not with the record's value; the
    second part evaluates [resetForm] on such a record. *)
Theorem resetForm_quantity_zero_seeds_one :
  (forall i n d c m ph nt today,
     PrizeFormModal.quantity
       (PrizeFormModal.resetForm
          (Some {| id := i; name := n; category := c; manufacturer := m; quantity := 0;
                   acquisitionDate := d; photo := ph; notes := nt |}) today) = 1)
  /\ PrizeFormModal.quantity
       (PrizeFormModal.resetForm
          (Some (Sample.prize "a" "Bear" "2024-01-01" Plush 0)) "2025-03-04")
     <> quantity (Sample.prize "a" "Bear" "2024-01-01" Plush 0).
Proof. split; [reflexivity|discriminate]. Qed.

(** ** The view model *)

Section SortFacts.
Context {A : Type}.
Variable compareFn : A -> A -> Z.

Lemma insert_sorted_perm (x : A) (l : list A) :
  Permutation (insert_sorted compareFn x l) (x :: l).
Proof.
  induction l as [|y l IH]; simpl; [reflexivity|].
  destruct (0 <? compareFn x y); [|reflexivity].
  rewrite IH. apply perm_swap.
Qed.

Lemma Array_sort_perm (l : list A) : Permutation (Array_sort compareFn l) l.
Proof.
  induction l as [|x l IH]; simpl; [reflexivity|].
  rewrite insert_sorted_perm. now rewrite IH.
Qed.

(** A comparator that orders by a key, larger keys first. *)
Variable key : A -> Z.
Variable ok : A -> Prop.
Hypothesis compareFn_key :
  forall a b, ok a -> ok b -> (0 < compareFn a b <-> key a < key b).

Lemma insert_sorted_sorted (x : A) (l : list A) :
  ok x -> Forall ok l ->
  StronglySorted (fun a b => key b <= key a) l ->
  StronglySorted (fun a b => key b <= key a) (insert_sorted compareFn x l).
Proof.
  intros Hx Hl Hs. induction l as [|y l IH]; simpl.
  - constructor; constructor.
  - inversion Hl as [|? ? Hy Hl']; subst.
    inversion Hs as [|? ? Hs' Hall]; subst.
    destruct (0 <? compareFn x y) eqn:E.
    + apply Z.ltb_lt, compareFn_key in E; auto.
      constructor; [now apply IH|].
      eapply Permutation_Forall; [symmetry; apply insert_sorted_perm|].
      constructor; [lia|exact Hall].
    + apply Z.ltb_ge in E.
      assert (Hyx : key y <= key x).
      { destruct (Z.le_gt_cases (key y) (key x)) as [H|H]; [exact H|].
        apply compareFn_key in H; auto. lia. }
      constructor; [exact Hs|].
      constructor; [exact Hyx|].
      eapply Forall_impl; [exact Hall|]. simpl. intros b Hb. lia.
Qed.

Lemma Array_sort_sorted (l : list A) :
  Forall ok l -> StronglySorted (fun a b => key b <= key a) (Array_sort compareFn l).
Proof.
  induction l as [|x l IH]; simpl; intros Hl; [constructor|].
  inversion Hl; subst.
  apply insert_sorted_sorted; auto.
  eapply Permutation_Forall; [symmetry; apply Array_sort_perm|assumption].
Qed.

Lemma insert_sorted_stable (t : Z) (x : A) (l : list A) :
  ok x -> Forall ok l ->
  List.filter (fun a => key a =? t) (insert_sorted compareFn x l)
  = List.filter (fun a => key a =? t) (x :: l).
Proof.
  intros Hx Hl. induction l as [|y l IH]; [reflexivity|].
  inversion Hl as [|? ? Hy Hl']; subst. simpl.
  destruct (0 <? compareFn x y) eqn:E; [|reflexivity].
  apply Z.ltb_lt, compareFn_key in E; auto.
  simpl. rewrite (IH Hl'). simpl.
  destruct (key y =? t) eqn:Ey, (key x =? t) eqn:Ex; try reflexivity.
  apply Z.eqb_eq in Ey, Ex. lia.
Qed.

Lemma Array_sort_stable (t : Z) (l : list A) :
  Forall ok l ->
  List.filter (fun a => key a =? t) (Array_sort compareFn l)
  = List.filter (fun a => key a =? t) l.
Proof.
  induction l as [|x l IH]; intros Hl; [reflexivity|].
  inversion Hl; subst. simpl Array_sort.
  rewrite insert_sorted_stable; auto.
  - simpl. now rewrite IH.
  - eapply Permutation_Forall; [symmetry; apply Array_sort_perm|assumption].
Qed.
End SortFacts.

Section ViewFacts.
Variable toLowerCase : string -> string.
Variable localeCompare : string -> string -> Z.
Variable getTime : string -> option Z.

Lemma compareDateDesc_key (a b : Prize) :
  validDate getTime a -> validDate getTime b ->
  (0 < compareDateDesc getTime a b <-> dateOf getTime a < dateOf getTime b).
Proof.
  unfold validDate, compareDateDesc, dateOf.
  intros [ta ->] [tb ->]. simpl. lia.
Qed.

Lemma sortBy_perm (o : SortOrder) (l : list Prize) :
  Permutation (sortBy localeCompare getTime o l) l.
Proof. destruct o; apply Array_sort_perm. Qed.

Lemma PrizeCategory_eqb_eq (a b : PrizeCategory) : PrizeCategory_eqb a b = true <-> a = b.
Proof. destruct a, b; simpl; split; congruence. Qed.

Lemma categoryMatch_selects (f : CategoryFilter) (p : Prize) :
  categoryMatch f p = true <-> selects f p.
Proof.
  unfold selects. destruct f as [|c]; simpl.
  - split; auto.
  - rewrite PrizeCategory_eqb_eq. split.
    + intros <-. now right.
    + intros [H|[= ->]]; [discriminate|reflexivity].
Qed.

Lemma In_view (term : string) (f : CategoryFilter) (o : SortOrder)
    (prizes : list Prize) (p : Prize) :
  In p (sortBy localeCompare getTime o (List.filter (matches toLowerCase term f) prizes))
  <-> In p prizes /\ includes (toLowerCase (name p)) term = true /\ selects f p.
Proof.
  assert (Hm : forall q, matches toLowerCase term f q = true
                 <-> includes (toLowerCase (name q)) term = true /\ selects f q).
  { intros q. unfold matches. now rewrite andb_true_iff, categoryMatch_selects. }
  split.
  - intros H. apply (Permutation_in _ (sortBy_perm o _)) in H.
    apply filter_In in H. destruct H as [Hin H]. apply Hm in H. tauto.
  - intros (Hin & H). apply (Permutation_in _ (Permutation_sym (sortBy_perm o _))).
    apply filter_In. split; [exact Hin|]. now apply Hm.
Qed.
End ViewFacts.

(** C7: the default sort order is [date-desc]; under it, when every
    acquisition date parses, the records shown are the records kept by the
    filter, newest first, and records of equal date stay in the order they
    have in the collection.  On the dates 2024-01-01, 2024-06-01, 2023-12-01
    the order shown is 2024-06-01, 2024-01-01, 2023-12-01. *)
Theorem date_desc_orders_newest_first :
  sortOrder initialApp = date_desc
  /\ (forall toLowerCase trim localeCompare getTime prizes searchTerm selectedCategory,
       Forall (validDate getTime) prizes ->
       let kept :=
         List.filter (matches toLowerCase (toLowerCase (trim searchTerm)) selectedCategory)
                     prizes in
       let shown :=
         filteredAndSortedPrizes toLowerCase trim localeCompare getTime
           prizes searchTerm selectedCategory date_desc in
       StronglySorted (fun a b => dateOf getTime b <= dateOf getTime a) shown
       /\ Permutation shown kept
       /\ forall t,
            List.filter (fun p => dateOf getTime p =? t) shown
            = List.filter (fun p => dateOf getTime p =? t) kept)
  /\ map acquisitionDate
       (Sample.view [Sample.prize "a" "Bear" "2024-01-01" Plush 1;
                     Sample.prize "b" "Robot" "2024-06-01" Figure 1;
                     Sample.prize "c" "Cat" "2023-12-01" Mascot 1]
                    "" AllCategories date_desc)
     = ["2024-06-01"; "2024-01-01"; "2023-12-01"].
Proof.
  split; [reflexivity|]. split; [|reflexivity].
  intros toLowerCase trim localeCompare getTime prizes searchTerm selectedCategory Hvalid
         kept shown.
  assert (Hkept : Forall (validDate getTime) kept).
  { apply Forall_forall. intros p Hp. apply list_elem_of_In, filter_In in Hp.
    rewrite Forall_forall in Hvalid. apply Hvalid, list_elem_of_In. tauto. }
  subst shown. unfold filteredAndSortedPrizes, sortBy. fold kept.
  split; [|split].
  - apply (Array_sort_sorted _ (dateOf getTime) (validDate getTime)); auto.
    apply compareDateDesc_key.
  - apply Array_sort_perm.
  - intros t.
    apply (Array_sort_stable _ (dateOf getTime) (validDate getTime)); auto.
    apply compareDateDesc_key.
Qed.

Lemma date_desc_orders_newest_first_witness :
  let prizes := [Sample.prize "a" "Bear" "2024-01-01" Plush 1;
                 Sample.prize "b" "Robot" "2024-06-01" Figure 1;
                 Sample.prize "c" "Cat" "2024-01-01" Mascot 1] in
  StronglySorted (fun a b => dateOf Sample.getTime b <= dateOf Sample.getTime a)
    (Sample.view prizes "" AllCategories date_desc)
  /\ List.filter (fun p => dateOf Sample.getTime p =? 1704067200000)
       (Sample.view prizes "" AllCategories date_desc)
     = [Sample.prize "a" "Bear" "2024-01-01" Plush 1;
        Sample.prize "c" "Cat" "2024-01-01" Mascot 1].
Proof.
  intros prizes.
  destruct (proj1 (proj2 date_desc_orders_newest_first)
              Sample.toLowerCase Sample.trim Sample.localeCompare Sample.getTime
              prizes "" AllCategories) as (Hsorted & _ & Hstable).
  - repeat constructor; eexists; vm_compute; reflexivity.
  - split; [exact Hsorted|]. rewrite Hstable. reflexivity.
Defined.

(** C8, as stated, fails: the search term is trimmed before it is matched,
    so a record is shown although its name does not contain the term as it
    was typed (here the term ends with a space). *)
Lemma search_term_is_trimmed_before_matching :
  let p := Sample.prize "a" "xa" "2024-01-01" Plush 1 in
  ~ (In p (Sample.view [p] "x " AllCategories date_desc)
     <-> In p [p]
         /\ includes (Sample.toLowerCase (name p)) (Sample.toLowerCase "x ") = true
         /\ selects AllCategories p).
Proof.
  intros p [H _].
  assert (Hshown : In p (Sample.view [p] "x " AllCategories date_desc))
    by (vm_compute; auto).
  destruct (H Hshown) as (_ & Hinc & _). vm_compute in Hinc. discriminate.
Qed.

(** C8 (amended): the view model shows exactly the records of the
    collection whose lower-cased name contains the lower-cased search term
    once the term's surrounding whitespace is trimmed, and whose category is
    the selected one unless the filter is ['すべて']; a category that no
    record has gives an empty view, and choosing a filter leaves the
    collection as it was. *)
Theorem view_keeps_trimmed_matches :
  forall toLowerCase trim localeCompare getTime
         (collection : list Prize) searchTerm selectedCategory sortOrder,
    let shown :=
      filteredAndSortedPrizes toLowerCase trim localeCompare getTime
        collection searchTerm selectedCategory sortOrder in
    (forall p,
       In p shown
       <-> In p collection
           /\ includes (toLowerCase (name p)) (toLowerCase (trim searchTerm)) = true
           /\ selects selectedCategory p)
    /\ Permutation shown
         (List.filter
            (matches toLowerCase (toLowerCase (trim searchTerm)) selectedCategory) collection)
    /\ (forall c, selectedCategory = Only c ->
                  (forall p, In p collection -> category p <> c) -> shown = [])
    /\ (forall JSON_parse JSON_stringify storeAccepts asPrize w f,
          prizes
            (app (step JSON_parse JSON_stringify storeAccepts asPrize
                       (SetSelectedCategory f) w))
          = prizes (app w)).
Proof.
  intros toLowerCase trim localeCompare getTime collection searchTerm selectedCategory
         sortOrder shown.
  assert (Hin : forall p,
             In p shown
             <-> In p collection
                 /\ includes (toLowerCase (name p)) (toLowerCase (trim searchTerm)) = true
                 /\ selects selectedCategory p).
  { intros p. unfold shown, filteredAndSortedPrizes. apply In_view. }
  split; [exact Hin|]. split; [apply sortBy_perm|]. split; [|reflexivity].
  intros c -> Hnone. clearbody shown. destruct shown as [|p rest]; [reflexivity|].
  exfalso. destruct (proj1 (Hin p)) as (Hp & _ & Hsel); [now left|].
  destruct Hsel as [Hsel|Hsel]; [discriminate|].
  injection Hsel as ->. now apply (Hnone p).
Qed.

Lemma legacy_view_keeps_matches :
  forall toLowerCase localeCompare getTime
         (collection : list Prize) searchTerm selectedCategory sortOrder p,
    In p (legacy_filteredAndSortedPrizes toLowerCase localeCompare getTime
            collection searchTerm selectedCategory sortOrder)
    <-> In p collection
        /\ includes (toLowerCase (name p)) (toLowerCase searchTerm) = true
        /\ selects selectedCategory p.
Proof. intros. apply In_view. Qed.

Lemma view_keeps_trimmed_matches_witness :
  Sample.view [Sample.prize "a" "Bear" "2024-01-01" Plush 1] " bear " (Only Figure) name_asc
  = [].
Proof.
  destruct (view_keeps_trimmed_matches
              Sample.toLowerCase Sample.trim Sample.localeCompare Sample.getTime
              [Sample.prize "a" "Bear" "2024-01-01" Plush 1] " bear " (Only Figure) name_asc)
    as (_ & _ & Hempty & _).
  apply (Hempty Figure); [reflexivity|].
  intros p [<-|[]]. discriminate.
Defined.

(** ** Timers and the persistence effect *)

Lemma filter_swap {A : Type} (f g : A -> bool) (l : list A) :
  List.filter f (List.filter g l) = List.filter g (List.filter f l).
Proof.
  induction l as [|x l IH]; simpl; [reflexivity|].
  destruct (g x) eqn:Eg, (f x) eqn:Ef; simpl; rewrite ?Eg, ?Ef, IH; reflexivity.
Qed.

Lemma filter_isSave_cancel (ref : option positive) (l : list Timer) :
  List.filter isSave (cancel ref l) = cancel ref (List.filter isSave l).
Proof. destruct ref as [h|]; simpl; [apply filter_swap|reflexivity]. Qed.

Lemma cancel_nil (ref : option positive) : cancel ref [] = [].
Proof. now destruct ref. Qed.

Lemma filter_other_handles_nil (h : positive) (l : list Timer) :
  (forall t, In t l -> handle t = h) ->
  List.filter (fun t => negb (handle t =? h)%positive) l = [].
Proof.
  induction l as [|t l IH]; simpl; intros H; [reflexivity|].
  rewrite (H t) by now left. rewrite Pos.eqb_refl. simpl.
  apply IH. intros t' Ht'. apply H. now right.
Qed.

Lemma cancel_own (ref : option positive) (l : list Timer) :
  (forall t, In t l -> ref = Some (handle t)) -> cancel ref l = [].
Proof.
  intros H. destruct l as [|t0 l]; [apply cancel_nil|].
  pose proof (H t0 (or_introl eq_refl)) as E0. rewrite E0. unfold cancel.
  apply filter_other_handles_nil.
  intros t Ht. pose proof (H t Ht) as E. rewrite E0 in E. now injection E.
Qed.

Lemma cancelAll_no_saves (w : World) :
  tracked w -> List.filter isSave (cancelAll (app w) (timers w)) = [].
Proof.
  intros Htr. unfold cancelAll.
  assert (Hown : cancel (saveTimeoutRef (app w)) (List.filter isSave (timers w)) = []).
  { apply cancel_own. intros t Ht. apply filter_In in Ht. destruct Ht as [Hin Hs].
    now destruct (Htr t Hin Hs). }
  rewrite !filter_isSave_cancel.
  destruct (persistCleanup (app w)).
  - rewrite !filter_isSave_cancel, Hown. now rewrite !cancel_nil.
  - rewrite Hown. apply cancel_nil.
Qed.

Lemma persistEffect_hydrated (w : World) :
  hydrated (app w) = true ->
  timers (persistEffect w)
  = cancelAll (app w) (timers w)
    ++ [{| handle := nextHandle w; due := now w + 500;
           callback := SaveCallback (saveSeqRef (app w) + 1) (prizes (app w)) |}]
  /\ saveTimeoutRef (app (persistEffect w)) = Some (nextHandle w)
  /\ saveSeqRef (app (persistEffect w)) = saveSeqRef (app w) + 1.
Proof.
  destruct w as [[ps mo pe st sc so ss hy sr tr sq pc] mt nw ts nh sg cl].
  simpl. intros ->.
  unfold persistEffect, persistCleanupFn, cancelAll.
  destruct pc, sr, tr; simpl; repeat split; reflexivity.
Qed.

Lemma persistEffect_dormant (w : World) :
  hydrated (app w) = false -> timers w = [] ->
  hydrated (app (persistEffect w)) = false /\ timers (persistEffect w) = [].
Proof.
  destruct w as [[ps mo pe st sc so ss hy sr tr sq pc] mt nw ts nh sg cl].
  simpl. intros -> ->.
  unfold persistEffect, persistCleanupFn.
  destruct pc, sr, tr; simpl; split; reflexivity.
Qed.

(** After the effect has run in a hydrated state whose pending writes are
    all tracked, exactly the new write is pending. *)
Lemma persistEffect_arms (w : World) :
  tracked w -> hydrated (app w) = true ->
  armed (persistEffect w) (now w + 500).
Proof.
  intros Htr Hhy.
  destruct (persistEffect_hydrated w Hhy) as (Hts & Href & Hseq).
  destruct (persistEffect_keeps w) as (Hps & _ & _ & Hhy' & _).
  split; [now rewrite Hhy'|].
  exists (nextHandle w). split; [exact Href|].
  unfold pendingSaves. rewrite Hts, List.filter_app, cancelAll_no_saves by exact Htr.
  simpl. now rewrite Hseq, Hps.
Qed.

Section Persistence.
Variable JSON_stringify : list Prize -> string.
Variable storeAccepts : string -> bool.

Lemma fire_spec (t : Timer) (w : World) :
  core (fire JSON_stringify storeAccepts (callback t) w) = core w
  /\ now (fire JSON_stringify storeAccepts (callback t) w) = now w
  /\ setItemCalls (fire JSON_stringify storeAccepts (callback t) w)
     = setItemCalls w ++ writesOf JSON_stringify (saveSeqRef (app w)) t
  /\ storage (fire JSON_stringify storeAccepts (callback t) w)
     = storeAfter storeAccepts (writesOf JSON_stringify (saveSeqRef (app w)) t) (storage w)
  /\ pendingSaves (fire JSON_stringify storeAccepts (callback t) w) = pendingSaves w.
Proof.
  destruct w as [[ps mo pe st sc so ss hy sr tr sq pc] mt nw ts nh sg cl].
  destruct t as [h d [q captured|]]; unfold writesOf, pendingSaves, core; simpl.
  - destruct (q =? sq); simpl.
    + destruct (storeAccepts (JSON_stringify captured)); simpl;
        rewrite ?List.filter_app, ?app_nil_r; repeat split; reflexivity.
    + rewrite app_nil_r. repeat split; reflexivity.
  - rewrite app_nil_r. repeat split; reflexivity.
Qed.

Lemma storeAfter_app (texts1 texts2 : list string) (slot : option string) :
  storeAfter storeAccepts (texts1 ++ texts2) slot
  = storeAfter storeAccepts texts2 (storeAfter storeAccepts texts1 slot).
Proof. unfold storeAfter. apply fold_left_app. Qed.

Lemma fire_all (ready : list Timer) (w : World) :
  let w' := fold_left (fun w t => fire JSON_stringify storeAccepts (callback t) w) ready w in
  let written := flat_map (writesOf JSON_stringify (saveSeqRef (app w))) ready in
  core w' = core w
  /\ now w' = now w
  /\ setItemCalls w' = setItemCalls w ++ written
  /\ storage w' = storeAfter storeAccepts written (storage w)
  /\ pendingSaves w' = pendingSaves w.
Proof.
  revert w. induction ready as [|t ready IH]; intros w; simpl.
  - rewrite app_nil_r. repeat split; reflexivity.
  - destruct (fire_spec t w) as (Hc & Hn & Hl & Hs & Hp).
    destruct (IH (fire JSON_stringify storeAccepts (callback t) w))
      as (Hc' & Hn' & Hl' & Hs' & Hp').
    assert (Hseq : saveSeqRef (app (fire JSON_stringify storeAccepts (callback t) w))
                   = saveSeqRef (app w)).
    { unfold core in Hc. now injection Hc. }
    rewrite Hseq in Hl', Hs'.
    repeat split.
    + now rewrite Hc'.
    + now rewrite Hn'.
    + now rewrite Hl', Hl, <- app_assoc.
    + now rewrite Hs', Hs, storeAfter_app.
    + now rewrite Hp'.
Qed.

Lemma writesOf_saves_only (seq : Z) (l : list Timer) :
  flat_map (writesOf JSON_stringify seq) l
  = flat_map (writesOf JSON_stringify seq) (List.filter isSave l).
Proof.
  induction l as [|t l IH]; simpl; [reflexivity|].
  unfold isSave at 1, writesOf at 1.
  destruct (callback t) as [q captured|] eqn:E; simpl.
  - unfold writesOf at 2. rewrite E. now rewrite IH.
  - exact IH.
Qed.

(** What one time unit does, read off the pending writes alone. *)
Lemma tick_spec (w : World) :
  let w' := tick JSON_stringify storeAccepts w in
  let written :=
    flat_map (writesOf JSON_stringify (saveSeqRef (app w)))
             (List.filter (isDue (now w + 1)) (pendingSaves w)) in
  core w' = core w
  /\ now w' = now w + 1
  /\ setItemCalls w' = setItemCalls w ++ written
  /\ storage w' = storeAfter storeAccepts written (storage w)
  /\ pendingSaves w' = List.filter (fun t => negb (isDue (now w + 1) t)) (pendingSaves w).
Proof.
  unfold tick.
  destruct (fire_all (List.filter (isDue (now w + 1)) (timers w))
              (set_clock (now w + 1)
                 (List.filter (fun t => negb (isDue (now w + 1) t)) (timers w)) w))
    as (Hc & Hn & Hl & Hs & Hp).
  cbv zeta. repeat split.
  - exact Hc.
  - exact Hn.
  - rewrite Hl. simpl. f_equal.
    rewrite writesOf_saves_only. unfold pendingSaves. now rewrite filter_swap.
  - rewrite Hs. simpl. f_equal.
    rewrite writesOf_saves_only. unfold pendingSaves. now rewrite filter_swap.
  - rewrite Hp. unfold pendingSaves. simpl. apply filter_swap.
Qed.

Lemma core_fields (w' w : World) :
  core w' = core w ->
  prizes (app w') = prizes (app w) /\ hydrated (app w') = hydrated (app w)
  /\ saveTimeoutRef (app w') = saveTimeoutRef (app w)
  /\ saveSeqRef (app w') = saveSeqRef (app w) /\ mounted w' = mounted w.
Proof. unfold core. intros [= -> -> -> -> ->]. repeat split. Qed.

Lemma armed_transfer (w' w : World) (d : Z) :
  core w' = core w -> pendingSaves w' = pendingSaves w -> armed w d -> armed w' d.
Proof.
  intros Hc Hp (Hhy & h & Href & Hpend).
  destruct (core_fields _ _ Hc) as (Eps & Ehy & Eref & Eseq & _).
  split; [congruence|]. exists h. split; [congruence|].
  now rewrite Hp, Eps, Eseq.
Qed.

Lemma quiet_transfer (w' w : World) :
  core w' = core w -> pendingSaves w' = pendingSaves w -> quiet w -> quiet w'.
Proof.
  intros Hc Hp (Hhy & Hpend).
  destruct (core_fields _ _ Hc) as (_ & Ehy & _).
  split; congruence.
Qed.

Lemma tick_waiting (w : World) (d : Z) :
  armed w d -> now w + 1 < d ->
  armed (tick JSON_stringify storeAccepts w) d
  /\ sameData (tick JSON_stringify storeAccepts w) w
  /\ now (tick JSON_stringify storeAccepts w) = now w + 1.
Proof.
  intros Harmed Hlt. pose proof Harmed as (Hhy & h & Href & Hpend).
  destruct (tick_spec w) as (Hc & Hn & Hl & Hs & Hp).
  assert (Hdue : (d <=? now w + 1) = false) by (apply Z.leb_gt; lia).
  rewrite Hpend in Hl, Hs, Hp. unfold isDue in Hl, Hs, Hp. simpl in Hl, Hs, Hp.
  rewrite Hdue in Hl, Hs, Hp. simpl in Hl, Hs, Hp. rewrite app_nil_r in Hl.
  split; [|split; [repeat split; assumption|exact Hn]].
  apply (armed_transfer _ w); auto. now rewrite Hp.
Qed.

Lemma tick_fires (w : World) (d : Z) :
  armed w d -> d <= now w + 1 ->
  quiet (tick JSON_stringify storeAccepts w)
  /\ core (tick JSON_stringify storeAccepts w) = core w
  /\ setItemCalls (tick JSON_stringify storeAccepts w)
     = setItemCalls w ++ [JSON_stringify (prizes (app w))]
  /\ storage (tick JSON_stringify storeAccepts w)
     = (if storeAccepts (JSON_stringify (prizes (app w)))
        then Some (JSON_stringify (prizes (app w))) else storage w).
Proof.
  intros (Hhy & h & Href & Hpend) Hle.
  destruct (tick_spec w) as (Hc & Hn & Hl & Hs & Hp).
  assert (Hdue : (d <=? now w + 1) = true) by (apply Z.leb_le; lia).
  rewrite Hpend in Hl, Hs, Hp. unfold isDue, writesOf in Hl, Hs, Hp.
  simpl in Hl, Hs, Hp. rewrite Hdue in Hl, Hs, Hp. simpl in Hl, Hs, Hp.
  rewrite Z.eqb_refl in Hl, Hs. simpl in Hl, Hs.
  destruct (core_fields _ _ Hc) as (_ & Ehy & _).
  repeat split; auto. congruence.
Qed.

Lemma tick_quiet (w : World) :
  quiet w ->
  quiet (tick JSON_stringify storeAccepts w)
  /\ sameData (tick JSON_stringify storeAccepts w) w.
Proof.
  intros Hq. pose proof Hq as (Hhy & Hpend).
  destruct (tick_spec w) as (Hc & Hn & Hl & Hs & Hp).
  rewrite Hpend in Hl, Hs, Hp. simpl in Hl, Hs, Hp. rewrite app_nil_r in Hl.
  split; [|repeat split; assumption].
  apply (quiet_transfer _ w); auto. now rewrite Hp.
Qed.

Lemma sameData_refl (w : World) : sameData w w.
Proof. repeat split. Qed.

Lemma sameData_trans (w1 w2 w3 : World) :
  sameData w1 w2 -> sameData w2 w3 -> sameData w1 w3.
Proof. intros (A1 & A2 & A3) (B1 & B2 & B3). repeat split; congruence. Qed.

Lemma ticks_add (n m : nat) (w : World) :
  ticks JSON_stringify storeAccepts (n + m) w
  = ticks JSON_stringify storeAccepts n (ticks JSON_stringify storeAccepts m w).
Proof. unfold ticks. apply Nat.iter_add. Qed.

Lemma ticks_waiting (n : nat) (w : World) (d : Z) :
  armed w d -> now w + Z.of_nat n < d ->
  armed (ticks JSON_stringify storeAccepts n w) d
  /\ sameData (ticks JSON_stringify storeAccepts n w) w
  /\ now (ticks JSON_stringify storeAccepts n w) = now w + Z.of_nat n.
Proof.
  intros Harmed. induction n as [|n IH]; intros Hlt.
  - simpl. split; [exact Harmed|]. split; [apply sameData_refl|lia].
  - destruct IH as (Ha & Hsame & Hnow); [lia|].
    change (ticks JSON_stringify storeAccepts (S n) w)
      with (tick JSON_stringify storeAccepts (ticks JSON_stringify storeAccepts n w)).
    destruct (tick_waiting _ d Ha) as (Ha' & Hsame' & Hnow'); [lia|].
    split; [exact Ha'|]. split; [eapply sameData_trans; eauto|lia].
Qed.

Lemma ticks_quiet (n : nat) (w : World) :
  quiet w ->
  quiet (ticks JSON_stringify storeAccepts n w)
  /\ sameData (ticks JSON_stringify storeAccepts n w) w.
Proof.
  intros Hq. induction n as [|n (Hq' & Hsame)].
  - split; [exact Hq|apply sameData_refl].
  - change (ticks JSON_stringify storeAccepts (S n) w)
      with (tick JSON_stringify storeAccepts (ticks JSON_stringify storeAccepts n w)).
    destruct (tick_quiet _ Hq') as (Hq'' & Hsame').
    split; [exact Hq''|eapply sameData_trans; eauto].
Qed.

(** A pending write fires once, 500 time units after it was scheduled, and
    nothing is written before or after. *)
Lemma ticks_fire (k : nat) (w : World) :
  armed w (now w + 500) -> (500 <= k)%nat ->
  quiet (ticks JSON_stringify storeAccepts k w)
  /\ core (ticks JSON_stringify storeAccepts k w) = core w
  /\ setItemCalls (ticks JSON_stringify storeAccepts k w)
     = setItemCalls w ++ [JSON_stringify (prizes (app w))]
  /\ storage (ticks JSON_stringify storeAccepts k w)
     = (if storeAccepts (JSON_stringify (prizes (app w)))
        then Some (JSON_stringify (prizes (app w))) else storage w).
Proof.
  intros Harmed Hk.
  replace k with ((k - 500) + (1 + 499))%nat by lia.
  rewrite ticks_add, ticks_add.
  destruct (ticks_waiting 499 w (now w + 500) Harmed) as (Ha & (Hc1 & Hl1 & Hs1) & Hnow);
    [lia|].
  set (w1 := ticks JSON_stringify storeAccepts 499 w) in *.
  change (ticks JSON_stringify storeAccepts 1 w1)
    with (tick JSON_stringify storeAccepts w1).
  destruct (tick_fires w1 (now w + 500) Ha) as (Hq & Hc2 & Hl2 & Hs2); [lia|].
  set (w2 := tick JSON_stringify storeAccepts w1) in *.
  destruct (ticks_quiet (k - 500) w2 Hq) as (Hq3 & Hc3 & Hl3 & Hs3).
  destruct (core_fields _ _ Hc1) as (Eps & _).
  split; [exact Hq3|]. split; [congruence|]. split.
  - rewrite Hl3, Hl2, Hl1, Eps. reflexivity.
  - rewrite Hs3, Hs2, Hs1, Eps. reflexivity.
Qed.
End Persistence.

Section Reachability.
Variable JSON_parse : string -> option JsVal.
Variable JSON_stringify : list Prize -> string.
Variable storeAccepts : string -> bool.
Variable asPrize : JsVal -> Prize.

Lemma step_change (c : Change) (w : World) :
  step JSON_parse JSON_stringify storeAccepts asPrize (eventOf c) w
  = persistEffect (staged c w).
Proof. destruct c; reflexivity. Qed.

Lemma staged_spec (c : Change) (w : World) :
  prizes (app (staged c w)) = applyChange c (prizes (app w))
  /\ hydrated (app (staged c w)) = hydrated (app w)
  /\ saveTimeoutRef (app (staged c w)) = saveTimeoutRef (app w)
  /\ timers (staged c w) = timers w
  /\ now (staged c w) = now w
  /\ mounted (staged c w) = mounted w
  /\ setItemCalls (staged c w) = setItemCalls w
  /\ storage (staged c w) = storage w.
Proof.
  destruct c as [prize|prizeId|prizeId q]; simpl; try (repeat split; reflexivity).
  destruct (match prizeToEdit (app w) with
            | Some p => (id p =? prizeId)%string
            | None => false
            end); simpl; repeat split; reflexivity.
Qed.

Lemma armed_tracked (w : World) (d : Z) : armed w d -> tracked w.
Proof.
  intros (Hhy & h & Href & Hpend) t Hin Hs.
  assert (Ht : In t (pendingSaves w)) by (apply filter_In; auto).
  rewrite Hpend in Ht. destruct Ht as [<-|[]]. simpl. auto.
Qed.

Lemma quiet_tracked (w : World) : quiet w -> tracked w.
Proof.
  intros (Hhy & Hpend) t Hin Hs.
  assert (Ht : In t (pendingSaves w)) by (apply filter_In; auto).
  rewrite Hpend in Ht. destruct Ht.
Qed.

Lemma live_tracked (w : World) : live w -> tracked w /\ hydrated (app w) = true.
Proof.
  intros (_ & [[d Ha]|Hq]).
  - split; [eapply armed_tracked; eauto|apply Ha].
  - split; [now apply quiet_tracked|apply Hq].
Qed.

(** A change made in a hydrated state leaves exactly one write pending, for
    the new collection, due 500 time units later; nothing is written yet. *)
Lemma change_arms (c : Change) (w : World) :
  tracked w -> hydrated (app w) = true ->
  let w' := step JSON_parse JSON_stringify storeAccepts asPrize (eventOf c) w in
  armed w' (now w + 500)
  /\ prizes (app w') = applyChange c (prizes (app w))
  /\ setItemCalls w' = setItemCalls w
  /\ storage w' = storage w
  /\ now w' = now w
  /\ mounted w' = mounted w.
Proof.
  intros Htr Hhy. cbv zeta. rewrite step_change.
  destruct (staged_spec c w) as (Sps & Shy & Sref & Sts & Snow & Smt & Slog & Sst).
  destruct (persistEffect_keeps (staged c w))
    as (Kps & _ & _ & _ & _ & _ & _ & Kmt & Know & Kst & Klog).
  assert (Htr' : tracked (staged c w)).
  { intros t Hin Hs. rewrite Sts in Hin. rewrite Shy, Sref. now apply Htr. }
  split.
  - rewrite <- Snow. apply persistEffect_arms; [exact Htr'|congruence].
  - repeat split; congruence.
Qed.

Lemma live_step (e : Event) (w : World) :
  live w -> live (step JSON_parse JSON_stringify storeAccepts asPrize e w).
Proof.
  intros Hlive. pose proof Hlive as (Hmt & Hstate).
  destruct (live_tracked w Hlive) as (Htr & Hhy).
  assert (Hchange : forall c,
            live (step JSON_parse JSON_stringify storeAccepts asPrize (eventOf c) w)).
  { intros c. destruct (change_arms c w Htr Hhy) as (Ha & _ & _ & _ & _ & Em).
    split; [congruence|]. left. eauto. }
  assert (Hui : forall w',
            core w' = core w -> pendingSaves w' = pendingSaves w -> live w').
  { intros w' Hc Hp. destruct (core_fields _ _ Hc) as (_ & _ & _ & _ & Em).
    split; [congruence|].
    destruct Hstate as [[d Ha]|Hq].
    - left. exists d. eapply armed_transfer; eauto.
    - right. eapply quiet_transfer; eauto. }
  destruct e as [|prize|prizeId confirmed|prizeId q| |prize| |term|c|o|];
    try (apply Hui; reflexivity).
  - simpl. unfold mount. now rewrite Hmt.
  - apply (Hchange (Saved prize)).
  - destruct confirmed; [apply (Hchange (Deleted prizeId))|exact Hlive].
  - apply (Hchange (Requantified prizeId q)).
  - simpl. destruct Hstate as [[d Ha]|Hq].
    + destruct (Z.le_gt_cases d (now w + 1)) as [Hle|Hgt].
      * destruct (tick_fires JSON_stringify storeAccepts w d Ha Hle) as (Hq & Hc & _).
        destruct (core_fields _ _ Hc) as (_ & _ & _ & _ & Em).
        split; [congruence|now right].
      * destruct (tick_waiting JSON_stringify storeAccepts w d Ha) as (Ha' & (Hc & _) & _);
          [lia|].
        destruct (core_fields _ _ Hc) as (_ & _ & _ & _ & Em).
        split; [congruence|]. left. eauto.
    + destruct (tick_quiet JSON_stringify storeAccepts w Hq) as (Hq' & Hc & _).
      destruct (core_fields _ _ Hc) as (_ & _ & _ & _ & Em).
      split; [congruence|now right].
Qed.

Lemma loadEffect_hydrates (w : World) :
  hydrated (app (loadEffect JSON_parse asPrize w)) = true
  /\ timers (loadEffect JSON_parse asPrize w) = timers w
  /\ mounted (loadEffect JSON_parse asPrize w) = mounted w
  /\ setItemCalls (loadEffect JSON_parse asPrize w) = setItemCalls w
  /\ storage (loadEffect JSON_parse asPrize w) = storage w.
Proof.
  unfold loadEffect.
  destruct (storage w) as [text|] eqn:Est; simpl; [|now rewrite Est].
  destruct (text =? "")%string; simpl; [now rewrite Est|].
  destruct (JSON_parse text); simpl; now rewrite Est.
Qed.

Lemma dormant_step (stored : option string) (e : Event) (w : World) :
  dormant stored w ->
  if isMount e
  then live (step JSON_parse JSON_stringify storeAccepts asPrize e w)
  else dormant stored (step JSON_parse JSON_stringify storeAccepts asPrize e w).
Proof.
  intros (Hhy & Hmt & Hts & Hlog & Hst).
  assert (Hchange : forall c,
            dormant stored
              (step JSON_parse JSON_stringify storeAccepts asPrize (eventOf c) w)).
  { intros c. rewrite step_change.
    destruct (staged_spec c w) as (_ & Shy & _ & Sts & _ & Smt & Slog & Sst).
    destruct (persistEffect_keeps (staged c w))
      as (_ & _ & _ & _ & _ & _ & _ & Kmt & _ & Kst & Klog).
    destruct (persistEffect_dormant (staged c w)) as (Dhy & Dts); [congruence..|].
    repeat split; congruence. }
  destruct e as [|prize|prizeId confirmed|prizeId q| |prize| |term|c|o|]; simpl isMount;
    cbv iota; try (repeat split; assumption).
  - simpl. unfold mount. rewrite Hmt.
    destruct (loadEffect_hydrates (set_mounted true w)) as (Lhy & Lts & Lmt & _).
    destruct (persistEffect_keeps (loadEffect JSON_parse asPrize (set_mounted true w)))
      as (_ & _ & _ & _ & _ & _ & _ & Kmt & _).
    split; [now rewrite Kmt, Lmt|].
    left. eexists. apply persistEffect_arms; [|exact Lhy].
    intros t Hin. rewrite Lts in Hin. simpl in Hin. rewrite Hts in Hin. destruct Hin.
  - apply (Hchange (Saved prize)).
  - destruct confirmed; [apply (Hchange (Deleted prizeId))|repeat split; assumption].
  - apply (Hchange (Requantified prizeId q)).
  - simpl. unfold tick. rewrite Hts. simpl. repeat split; assumption.
Qed.

Lemma settled_step (stored : option string) (e : Event) (w : World) :
  settled stored w ->
  settled stored (step JSON_parse JSON_stringify storeAccepts asPrize e w).
Proof.
  intros [Hd|Hl].
  - pose proof (dormant_step stored e w Hd) as H.
    destruct (isMount e); [now right|now left].
  - right. now apply live_step.
Qed.

Lemma settled_init (stored : option string) : settled stored (init stored).
Proof. left. repeat split. Qed.

Lemma settled_run (stored : option string) (events : list Event) (w : World) :
  settled stored w ->
  settled stored (run JSON_parse JSON_stringify storeAccepts asPrize events w).
Proof.
  revert w. induction events as [|e events IH]; intros w Hw; [exact Hw|].
  simpl. apply IH. now apply settled_step.
Qed.

Lemma settled_history (stored : option string) (events : list Event) (w : World) :
  settled stored w ->
  Forall (settled stored)
         (history JSON_parse JSON_stringify storeAccepts asPrize events w).
Proof.
  revert w. induction events as [|e events IH]; intros w Hw; simpl.
  - constructor; [exact Hw|constructor].
  - constructor; [exact Hw|]. apply IH. now apply settled_step.
Qed.
End Reachability.

(** ** Debounced persistence *)

Lemma burst_spec :
  forall JSON_parse JSON_stringify storeAccepts asPrize
         (changes : list (Change * nat)) (w : World),
    tracked w -> hydrated (app w) = true ->
    Forall (fun cg => (cg.2 < 500)%nat) changes ->
    let w' := burst JSON_parse JSON_stringify storeAccepts asPrize changes w in
    tracked w' /\ hydrated (app w') = true
    /\ prizes (app w') = applyChanges (map fst changes) (prizes (app w))
    /\ setItemCalls w' = setItemCalls w
    /\ storage w' = storage w.
Proof.
  intros JSON_parse JSON_stringify storeAccepts asPrize changes.
  induction changes as [|[c gap] rest IH]; intros w Htr Hhy Hgaps.
  - simpl. split; [exact Htr|]. split; [exact Hhy|]. repeat split.
  - inversion Hgaps as [|? ? Hgap Hrest]; subst. simpl in Hgap.
    destruct (change_arms JSON_parse JSON_stringify storeAccepts asPrize c w Htr Hhy)
      as (Ha & Eps & Elog & Est & Enow & _).
    set (w1 := step JSON_parse JSON_stringify storeAccepts asPrize (eventOf c) w) in *.
    rewrite <- Enow in Ha.
    destruct (ticks_waiting JSON_stringify storeAccepts gap w1 _ Ha)
      as (Ha2 & (Hc & Hl & Hs) & _); [lia|].
    set (w2 := ticks JSON_stringify storeAccepts gap w1) in *.
    destruct (core_fields _ _ Hc) as (Eps2 & _).
    destruct (IH w2) as (Htr' & Hhy' & Eps' & Elog' & Est'); auto.
    + eapply armed_tracked; eauto.
    + apply Ha2.
    + simpl. fold w1. fold w2.
      split; [exact Htr'|]. split; [exact Hhy'|]. repeat split; congruence.
Qed.

(** C1: from any reachable hydrated state, a burst of changes in which each
    change follows the previous one by fewer than 500 time units, followed
    by at least 500 quiet time units, passes exactly one value to the store:
    the serialization of the collection left by the last change (which the
    store then holds, if it accepts the value).  A delayed write that finds
    the generation counter different from the number it captured returns
    without any effect. *)
Theorem burst_writes_last_state_once :
  forall JSON_parse JSON_stringify storeAccepts asPrize
         (stored : option string) (events : list Event)
         (changes : list (Change * nat)) (last : Change) (k : nat),
    let w := run JSON_parse JSON_stringify storeAccepts asPrize events (init stored) in
    hydrated (app w) = true ->
    Forall (fun cg => (cg.2 < 500)%nat) changes ->
    (500 <= k)%nat ->
    let w' :=
      ticks JSON_stringify storeAccepts k
        (step JSON_parse JSON_stringify storeAccepts asPrize (eventOf last)
           (burst JSON_parse JSON_stringify storeAccepts asPrize changes w)) in
    prizes (app w') = applyChange last (applyChanges (map fst changes) (prizes (app w)))
    /\ setItemCalls w' = setItemCalls w ++ [JSON_stringify (prizes (app w'))]
    /\ (storeAccepts (JSON_stringify (prizes (app w'))) = true ->
        storage w' = Some (JSON_stringify (prizes (app w'))))
    /\ (forall v mySeq captured,
          mySeq <> saveSeqRef (app v) ->
          fire JSON_stringify storeAccepts (SaveCallback mySeq captured) v = v).
Proof.
  intros JSON_parse JSON_stringify storeAccepts asPrize stored events changes last k
         w Hhy Hgaps Hk w'.
  assert (Hset : settled stored w) by (apply settled_run, settled_init).
  assert (Htr : tracked w).
  { destruct Hset as [(Hd & _)|Hl]; [congruence|now apply live_tracked]. }
  destruct (burst_spec JSON_parse JSON_stringify storeAccepts asPrize changes w Htr Hhy Hgaps)
    as (Htr1 & Hhy1 & Eps1 & Elog1 & Est1).
  set (w1 := burst JSON_parse JSON_stringify storeAccepts asPrize changes w) in *.
  destruct (change_arms JSON_parse JSON_stringify storeAccepts asPrize last w1 Htr1 Hhy1)
    as (Ha & Eps2 & Elog2 & Est2 & Enow & _).
  set (w2 := step JSON_parse JSON_stringify storeAccepts asPrize (eventOf last) w1) in *.
  rewrite <- Enow in Ha.
  destruct (ticks_fire JSON_stringify storeAccepts k w2 Ha Hk) as (_ & Hc & Hlog & Hst).
  fold w' in Hc, Hlog, Hst.
  destruct (core_fields _ _ Hc) as (Eps3 & _).
  split; [congruence|]. split; [|split].
  - rewrite Hlog, Elog2, Elog1, Eps3. reflexivity.
  - intros Hok. rewrite Hst. rewrite Eps3 in Hok. rewrite Hok. now rewrite Eps3.
  - intros v mySeq captured Hne. simpl.
    apply Z.eqb_neq in Hne. now rewrite Hne.
Qed.

Lemma burst_writes_last_state_once_witness :
  let bear := Sample.prize "a" "Bear" "2024-01-01" Plush 1 in
  let w' :=
    Sample.ticks 500
      (Sample.step (QuantityChange "a" 3)
         (burst Sample.parse Sample.stringify Sample.accepts Sample.asPrize
            [(Saved bear, 100%nat); (Deleted "zz", 499%nat)]
            (Sample.run [Mount; Tick] (init None)))) in
  setItemCalls w' = [Sample.stringify [Sample.prize "a" "Bear" "2024-01-01" Plush 3]]
  /\ storage w' = Some (Sample.stringify [Sample.prize "a" "Bear" "2024-01-01" Plush 3]).
Proof.
  intros bear w'.
  destruct (burst_writes_last_state_once
              Sample.parse Sample.stringify Sample.accepts Sample.asPrize
              None [Mount; Tick] [(Saved bear, 100%nat); (Deleted "zz", 499%nat)]
              (Requantified "a" 3) 500)
    as (Hps & Hlog & Hst & _).
  - reflexivity.
  - repeat constructor; simpl; lia.
  - lia.
  - split.
    + refine (eq_trans Hlog _). rewrite Hps. reflexivity.
    + refine (eq_trans (Hst eq_refl) _). rewrite Hps. reflexivity.
Defined.

(** ** Hydration *)

Section HydrationFacts.
Variable JSON_parse : string -> option JsVal.
Variable JSON_stringify : list Prize -> string.
Variable storeAccepts : string -> bool.
Variable asPrize : JsVal -> Prize.

Lemma history_head (events : list Event) (w : World) :
  exists rest,
    history JSON_parse JSON_stringify storeAccepts asPrize events w = w :: rest.
Proof. destruct events; simpl; eauto. Qed.

Lemma rises_live (events : list Event) (w : World) :
  live w ->
  rises (map (fun v => hydrated (app v))
             (history JSON_parse JSON_stringify storeAccepts asPrize events w)) = 0%nat.
Proof.
  revert w. induction events as [|e events IH]; intros w Hlive.
  - simpl. destruct (live_tracked w Hlive) as (_ & ->). reflexivity.
  - simpl history. simpl map. simpl rises.
    destruct (live_tracked w Hlive) as (_ & ->).
    apply (IH _ (live_step JSON_parse JSON_stringify storeAccepts asPrize e w Hlive)).
Qed.

Lemma rises_dormant (stored : option string) (events : list Event) (w : World) :
  dormant stored w ->
  rises (map (fun v => hydrated (app v))
             (history JSON_parse JSON_stringify storeAccepts asPrize events w))
  = (if existsb isMount events then 1 else 0)%nat.
Proof.
  revert w. induction events as [|e events IH]; intros w Hd.
  - simpl. destruct Hd as (-> & _). reflexivity.
  - pose proof (dormant_step JSON_parse JSON_stringify storeAccepts asPrize stored e w Hd)
      as Hstep.
    simpl history. simpl map. simpl rises. simpl existsb.
    destruct Hd as (-> & _).
    destruct (history_head events
                (step JSON_parse JSON_stringify storeAccepts asPrize e w))
      as (rest & Hrest).
    destruct (isMount e).
    + rewrite (rises_live events _ Hstep). rewrite Hrest. simpl.
      destruct (live_tracked _ Hstep) as (_ & ->). reflexivity.
    + rewrite (IH _ Hstep). rewrite Hrest. simpl.
      destruct Hstep as (-> & _). reflexivity.
Qed.
End HydrationFacts.

(** C2: along every run of the component, a world in which [hydrated] is
    still false has passed nothing to the store and left the slot as it
    found it, whatever was done to the collection meanwhile; [hydrated]
    is true exactly in the worlds in which the mount effects have run; it
    goes from false to true once if the run contains the mount and never
    otherwise; and the load effect ends with [hydrated] true whatever the
    slot holds and whether or not it parses. *)
Theorem no_write_before_hydration :
  forall JSON_parse JSON_stringify storeAccepts asPrize
         (stored : option string) (events : list Event),
    let worlds :=
      history JSON_parse JSON_stringify storeAccepts asPrize events (init stored) in
    Forall (fun w => hydrated (app w) = false ->
                     setItemCalls w = [] /\ storage w = stored) worlds
    /\ Forall (fun w => hydrated (app w) = mounted w) worlds
    /\ rises (map (fun w => hydrated (app w)) worlds)
       = (if existsb isMount events then 1 else 0)%nat
    /\ (forall w, hydrated (app (loadEffect JSON_parse asPrize w)) = true).
Proof.
  intros JSON_parse JSON_stringify storeAccepts asPrize stored events worlds.
  pose proof (settled_history JSON_parse JSON_stringify storeAccepts asPrize
                stored events (init stored) (settled_init stored)) as Hall.
  fold worlds in Hall.
  split; [|split; [|split]].
  - eapply Forall_impl; [exact Hall|]. simpl.
    intros w [(_ & _ & _ & Hlog & Hst)|Hlive] Hhy; [auto|].
    destruct (live_tracked w Hlive) as (_ & Hhy'). congruence.
  - eapply Forall_impl; [exact Hall|]. simpl.
    intros w [(Hhy & Hmt & _)|Hlive]; [congruence|].
    destruct (live_tracked w Hlive) as (_ & Hhy'). destruct Hlive as (Hmt & _).
    congruence.
  - apply (rises_dormant _ _ _ _ stored). repeat split.
  - intros w. apply loadEffect_hydrates.
Qed.

Lemma no_write_before_hydration_witness :
  let worlds :=
    history Sample.parse Sample.stringify Sample.accepts Sample.asPrize
      [SavePrize (Sample.prize "a" "Bear" "2024-01-01" Plush 1); Tick; Mount; Tick]
      (init (Some "junk")) in
  map (fun w => hydrated (app w)) worlds = [false; false; false; true; true]
  /\ map setItemCalls worlds = [[]; []; []; []; []]
  /\ rises (map (fun w => hydrated (app w)) worlds) = 1%nat.
Proof.
  intros worlds.
  destruct (no_write_before_hydration
              Sample.parse Sample.stringify Sample.accepts Sample.asPrize (Some "junk")
              [SavePrize (Sample.prize "a" "Bear" "2024-01-01" Plush 1); Tick; Mount; Tick])
    as (_ & _ & Hrises & _).
  split; [reflexivity|]. split; [reflexivity|]. exact Hrises.
Defined.

(** ** The write itself *)

(** C6: in every reachable state, when a pending write whose captured
    generation equals the current counter comes due, the collection it
    captured is the current one, and the next time unit passes its
    serialization to the store, which then holds it (if the store accepts
    the value); nothing tests whether the collection is empty, so an empty
    collection is written as the serialization of the empty sequence. *)
Theorem matching_write_persists_collection :
  forall JSON_parse JSON_stringify storeAccepts asPrize
         (stored : option string) (events : list Event)
         (t : Timer) (mySeq : Z) (captured : list Prize),
    let w := run JSON_parse JSON_stringify storeAccepts asPrize events (init stored) in
    In t (timers w) ->
    callback t = SaveCallback mySeq captured ->
    mySeq = saveSeqRef (app w) ->
    due t <= now w + 1 ->
    let w' := tick JSON_stringify storeAccepts w in
    captured = prizes (app w)
    /\ prizes (app w') = prizes (app w)
    /\ setItemCalls w' = setItemCalls w ++ [JSON_stringify (prizes (app w))]
    /\ (storeAccepts (JSON_stringify (prizes (app w))) = true ->
        storage w' = Some (JSON_stringify (prizes (app w))))
    /\ (prizes (app w) = [] ->
        setItemCalls w' = setItemCalls w ++ [JSON_stringify []]
        /\ (storeAccepts (JSON_stringify []) = true ->
            storage w' = Some (JSON_stringify []))).
Proof.
  intros JSON_parse JSON_stringify storeAccepts asPrize stored events t mySeq captured
         w Hin Hcb Hseq Hdue w'.
  assert (Hset : settled stored w) by (apply settled_run, settled_init).
  assert (Hpend : In t (pendingSaves w)).
  { apply filter_In. split; [exact Hin|]. unfold isSave. now rewrite Hcb. }
  assert (Harmed : armed w (due t) /\ captured = prizes (app w)).
  { destruct Hset as [(_ & _ & Hts & _)|(_ & [[d Ha]|(_ & Hq)])].
    - rewrite Hts in Hin. destruct Hin.
    - pose proof Ha as (_ & h & _ & Hp). rewrite Hp in Hpend.
      destruct Hpend as [<-|[]]. simpl in Hcb. simpl. split; [exact Ha|congruence].
    - rewrite Hq in Hpend. destruct Hpend. }
  destruct Harmed as (Ha & Hcap).
  destruct (tick_fires JSON_stringify storeAccepts w (due t) Ha Hdue)
    as (_ & Hc & Hlog & Hst).
  fold w' in Hc, Hlog, Hst.
  destruct (core_fields _ _ Hc) as (Eps & _).
  split; [exact Hcap|]. split; [exact Eps|]. split; [exact Hlog|]. split.
  - intros Hok. now rewrite Hst, Hok.
  - intros Hempty. rewrite Hempty in Hlog, Hst. split; [exact Hlog|].
    intros Hok. now rewrite Hst, Hok.
Qed.

Lemma matching_write_persists_collection_witness :
  let w :=
    Sample.ticks 499
      (Sample.run [Mount; SavePrize (Sample.prize "a" "Bear" "2024-01-01" Plush 1);
                   DeletePrize "a" true] (init (Some "junk"))) in
  prizes (app w) = []
  /\ setItemCalls (Sample.tick w) = ["[]"]
  /\ storage (Sample.tick w) = Some "[]".
Proof.
  intros w.
  destruct (matching_write_persists_collection
              Sample.parse Sample.stringify Sample.accepts Sample.asPrize (Some "junk")
              ([Mount; SavePrize (Sample.prize "a" "Bear" "2024-01-01" Plush 1);
                DeletePrize "a" true] ++ repeat Tick 499)
              {| handle := 3; due := 500; callback := SaveCallback 3 [] |} 3 [])
    as (_ & _ & _ & _ & Hempty).
  - vm_compute. auto.
  - reflexivity.
  - vm_compute. reflexivity.
  - vm_compute. discriminate.
  - destruct Hempty as (Hlog & Hst); [vm_compute; reflexivity|].
    split; [vm_compute; reflexivity|]. split.
    + refine (eq_trans _ (eq_trans Hlog _)); vm_compute; reflexivity.
    + refine (eq_trans _ (Hst eq_refl)). vm_compute. reflexivity.
Defined.

(** * Further properties of the collection updaters *)

Lemma findIndex_at (prizeId : string) (l : list Prize) (i : nat) (old : Prize) :
  l !! i = Some old -> id old = prizeId ->
  (forall (j : nat) p, (j < i)%nat -> l !! j = Some p -> id p <> prizeId) ->
  findIndex prizeId l = Z.of_nat i.
Proof.
  revert i. induction l as [|p l IH]; intros i Hi Hid Hfirst; [discriminate|].
  destruct i as [|i]; simpl in *.
  - injection Hi as ->. apply String.eqb_eq in Hid. now rewrite Hid.
  - assert (Hp : id p <> prizeId) by (apply (Hfirst 0%nat p); [lia|reflexivity]).
    apply String.eqb_neq in Hp. rewrite Hp.
    rewrite (IH i Hi Hid).
    + destruct (Z.of_nat i =? -1) eqn:E; [apply Z.eqb_eq in E; lia|lia].
    + intros j q Hj Hq. apply (Hfirst (S j) q); [lia|exact Hq].
Qed.

Lemma savePrize_present (prize : Prize) (l : list Prize) :
  In (id prize) (map id l) ->
  exists (i : nat) old,
    l !! i = Some old /\ id old = id prize
    /\ (forall (j : nat) p, (j < i)%nat -> l !! j = Some p -> id p <> id prize)
    /\ savePrize prize l = <[i := prize]> l.
Proof.
  intros Hin. unfold savePrize.
  assert (Hne : findIndex (id prize) l <> -1).
  { intros H. apply findIndex_absent in H. contradiction. }
  pose proof (findIndex_lower (id prize) l) as Hlo.
  destruct (findIndex_first _ _ Hne) as (old & Hold & Hid & Hfirst).
  replace (findIndex (id prize) l >? -1) with true by (symmetry; apply Z.gtb_lt; lia).
  eauto 10.
Qed.

Lemma savePrize_absent (prize : Prize) (l : list Prize) :
  ~ In (id prize) (map id l) -> savePrize prize l = l ++ [prize].
Proof. intros H. unfold savePrize. apply findIndex_absent in H. now rewrite H. Qed.

Lemma In_ids_dec (prizeId : string) (l : list Prize) :
  In prizeId (map id l) \/ ~ In prizeId (map id l).
Proof.
  destruct (in_dec String.string_dec prizeId (map id l)); [now left|now right].
Qed.

Lemma map_id_insert (l : list Prize) (i : nat) (old prize : Prize) :
  l !! i = Some old -> id old = id prize -> map id (<[i := prize]> l) = map id l.
Proof.
  revert i. induction l as [|p l IH]; intros [|i] Hi Hid; simpl in *; try discriminate.
  - injection Hi as ->. now rewrite Hid.
  - f_equal. now apply IH.
Qed.

Lemma savePrize_ids (prize : Prize) (l : list Prize) :
  (In (id prize) (map id l) -> map id (savePrize prize l) = map id l)
  /\ (~ In (id prize) (map id l) -> map id (savePrize prize l) = map id l ++ [id prize]).
Proof.
  split.
  - intros Hin. destruct (savePrize_present prize l Hin) as (i & old & Hold & Hid & _ & ->).
    eapply map_id_insert; eauto.
  - intros Hnot. rewrite savePrize_absent by exact Hnot. now rewrite map_app.
Qed.

Lemma deletePrize_In (prizeId : string) (l : list Prize) (p : Prize) :
  In p (deletePrize prizeId l) <-> In p l /\ id p <> prizeId.
Proof.
  unfold deletePrize. rewrite filter_In, negb_true_iff, String.eqb_neq. tauto.
Qed.

Lemma changeQuantity_ids (prizeId : string) (q : Z) (l : list Prize) :
  map id (changeQuantity prizeId q l) = map id l.
Proof.
  unfold changeQuantity. rewrite map_map. apply map_ext.
  intros p. now destruct (id p =? prizeId)%string.
Qed.

Lemma deletePrize_ids_unique (prizeId : string) (l : list Prize) :
  NoDup (map id l) -> NoDup (map id (deletePrize prizeId l)).
Proof.
  unfold deletePrize. induction l as [|p l IH]; simpl; [auto|].
  rewrite NoDup_cons. intros (Hnotin & Hnd).
  destruct (id p =? prizeId)%string; simpl; [auto|].
  apply NoDup_cons. split; [|auto].
  intros Hin. apply Hnotin. apply list_elem_of_In in Hin. apply list_elem_of_In.
  apply in_map_iff in Hin. destruct Hin as (x & Hx & Hin).
  apply filter_In in Hin. apply in_map_iff. exists x. tauto.
Qed.

(** X1: changing a quantity keeps the collection's length and order; a
    record with the given identifier gets the new quantity and keeps all its
    other fields, and every other record is left as it is. *)
Theorem changeQuantity_touches_only_quantity (prizeId : string) (q : Z) (l : list Prize) :
  Forall2
    (fun p p' =>
       id p' = id p /\ name p' = name p /\ category p' = category p
       /\ manufacturer p' = manufacturer p /\ acquisitionDate p' = acquisitionDate p
       /\ photo p' = photo p /\ notes p' = notes p
       /\ quantity p' = (if (id p =? prizeId)%string then q else quantity p)
       /\ (if (id p =? prizeId)%string then True else p' = p))
    l (changeQuantity prizeId q l).
Proof.
  unfold changeQuantity. induction l as [|p l IH]; simpl; constructor; [|exact IH].
  destruct (id p =? prizeId)%string; simpl; repeat split; reflexivity.
Qed.

(** X2: each of the three collection changes (save, delete, quantity
    change) keeps the identifiers of the collection pairwise distinct. *)
Theorem changes_keep_identifiers_unique (c : Change) (l : list Prize) :
  NoDup (map id l) -> NoDup (map id (applyChange c l)).
Proof.
  intros Hnd. destruct c as [prize|prizeId|prizeId q]; simpl.
  - destruct (In_ids_dec (id prize) l) as [Hin|Hnot].
    + now rewrite (proj1 (savePrize_ids prize l) Hin).
    + rewrite (proj2 (savePrize_ids prize l) Hnot).
      apply NoDup_app. split; [exact Hnd|]. split; [|apply NoDup_singleton].
      intros x Hx Hx'. apply list_elem_of_In in Hx. apply list_elem_of_In in Hx'.
      destruct Hx' as [<-|[]]. contradiction.
  - now apply deletePrize_ids_unique.
  - now rewrite changeQuantity_ids.
Qed.

Lemma changes_keep_identifiers_unique_witness :
  NoDup (map id (applyChange (Saved (Sample.prize "b" "Robot" "2024-02-01" Figure 2))
                   [Sample.prize "a" "Bear" "2024-01-01" Plush 1;
                    Sample.prize "b" "Robot" "2023-02-01" Figure 1])).
Proof.
  apply changes_keep_identifiers_unique.
  simpl. repeat constructor; rewrite list_elem_of_In; simpl; intuition discriminate.
Defined.

(** X3: a deletion keeps exactly the records whose identifier differs from
    the given one, in their order; afterwards no record carries the
    identifier, and deleting it again changes nothing. *)
Theorem deletePrize_removes_every_match (prizeId : string) (l : list Prize) :
  (forall p, In p (deletePrize prizeId l) <-> In p l /\ id p <> prizeId)
  /\ sublist (deletePrize prizeId l) l
  /\ ~ In prizeId (map id (deletePrize prizeId l))
  /\ deletePrize prizeId (deletePrize prizeId l) = deletePrize prizeId l.
Proof.
  split; [intros p; apply deletePrize_In|]. split; [|split].
  - unfold deletePrize. induction l as [|p l IH]; simpl; [constructor|].
    destruct (negb (id p =? prizeId)%string); now constructor.
  - intros Hin. apply in_map_iff in Hin. destruct Hin as (p & Hid & Hp).
    apply deletePrize_In in Hp. tauto.
  - apply deletePrize_absent. intros Hin. apply in_map_iff in Hin.
    destruct Hin as (p & Hid & Hp). apply deletePrize_In in Hp. tauto.
Qed.

(** X4: after a save the collection contains the saved record; saving the
    same record again changes nothing; and deleting the saved record's
    identifier afterwards gives what deleting it beforehand would have. *)
Theorem savePrize_then_lookup_save_delete (prize : Prize) (l : list Prize) :
  In prize (savePrize prize l)
  /\ savePrize prize (savePrize prize l) = savePrize prize l
  /\ deletePrize (id prize) (savePrize prize l) = deletePrize (id prize) l.
Proof.
  destruct (In_ids_dec (id prize) l) as [Hin|Hnot].
  - destruct (savePrize_present prize l Hin) as (i & old & Hold & Hid & Hfirst & Hsave).
    assert (Hlt : (i < length l)%nat) by (eapply lookup_lt_Some; eauto).
    assert (Hnew : <[i := prize]> l !! i = Some prize)
      by (now apply list_lookup_insert_eq).
    rewrite Hsave. split; [|split].
    + apply list_elem_of_In. eapply list_elem_of_lookup_2; eauto.
    + unfold savePrize.
      rewrite (findIndex_at (id prize) (<[i := prize]> l) i prize Hnew eq_refl).
      * replace (Z.of_nat i >? -1) with true by (symmetry; apply Z.gtb_lt; lia).
        rewrite Nat2Z.id. apply list_insert_insert_eq.
      * intros j p Hj Hp. rewrite list_lookup_insert_ne in Hp by lia. eauto.
    + clear Hfirst Hsave Hnew Hlt Hin. revert i Hold.
      unfold deletePrize.
      induction l as [|p l IH]; intros [|i] Hold; simpl in *; try discriminate.
      * injection Hold as ->. rewrite Hid. now rewrite String.eqb_refl.
      * now rewrite (IH i Hold).
  - rewrite (savePrize_absent prize l Hnot). split; [|split].
    + apply in_or_app. right. now left.
    + unfold savePrize.
      assert (Hat : (l ++ [prize]) !! length l = Some prize).
      { rewrite lookup_app_r by lia. now rewrite Nat.sub_diag. }
      rewrite (findIndex_at (id prize) (l ++ [prize]) (length l) prize Hat eq_refl).
      * replace (Z.of_nat (length l) >? -1) with true by (symmetry; apply Z.gtb_lt; lia).
        rewrite Nat2Z.id.
        replace (length l) with (length l + 0)%nat at 1 by lia.
        now rewrite insert_app_r.
      * intros j p Hj Hp. rewrite lookup_app_l in Hp by lia.
        intros Hidp. apply Hnot. apply in_map_iff. exists p. split; [exact Hidp|].
        apply list_elem_of_In. eapply list_elem_of_lookup_2; eauto.
    + unfold deletePrize. rewrite List.filter_app. simpl.
      rewrite String.eqb_refl. simpl. apply app_nil_r.
Qed.

(** X5: of two quantity changes to the same identifier the later one wins,
    and quantity changes to different identifiers can be made in either
    order. *)
Theorem changeQuantity_composes (k1 k2 : string) (q1 q2 : Z) (l : list Prize) :
  changeQuantity k1 q2 (changeQuantity k1 q1 l) = changeQuantity k1 q2 l
  /\ (k1 <> k2 ->
      changeQuantity k2 q2 (changeQuantity k1 q1 l)
      = changeQuantity k1 q1 (changeQuantity k2 q2 l)).
Proof.
  unfold changeQuantity. split.
  - rewrite map_map. apply map_ext. intros p.
    destruct (id p =? k1)%string eqn:E; simpl; rewrite E; reflexivity.
  - intros Hne. rewrite !map_map. apply map_ext. intros p.
    destruct (id p =? k1)%string eqn:E1, (id p =? k2)%string eqn:E2;
      simpl; rewrite ?E1, ?E2; try reflexivity.
    apply String.eqb_eq in E1, E2. congruence.
Qed.

Lemma changeQuantity_composes_witness :
  let l := [Sample.prize "a" "Bear" "2024-01-01" Plush 1;
            Sample.prize "b" "Robot" "2024-02-01" Figure 2] in
  changeQuantity "b" 7 (changeQuantity "a" 0 l)
  = changeQuantity "a" 0 (changeQuantity "b" 7 l).
Proof.
  intros l. apply (proj2 (changeQuantity_composes "a" "b" 0 7 l)). discriminate.
Defined.

(** * Further properties of the migration *)

Lemma migrateOne_complete (p : JsVal) : complete (migrateOne p).
Proof.
  split; [unfold migrateOne; eauto|]. split.
  - rewrite migrateOne_category. now apply truthy_or_else.
  - rewrite migrateOne_quantity. now apply nullish_coalesce.
Qed.

Lemma migrateOne_fixes_complete (p : JsVal) : complete p -> migrateOne p = p.
Proof.
  intros ((props & ->) & Hc & Hq). unfold migrateOne.
  rewrite getProp_obj in Hc, Hq. rewrite !getProp_obj. simpl ownProps.
  destruct (assoc "category" props) as [c|] eqn:Ec; [|discriminate].
  destruct (assoc "quantity" props) as [q|] eqn:Eq; [|discriminate].
  simpl in Hc, Hq. simpl.
  rewrite (or_else_truthy c) by exact Hc.
  rewrite (coalesce_present q) by exact Hq.
  rewrite (setProp_id "category" c props Ec).
  now rewrite (setProp_id "quantity" q props Eq).
Qed.

Lemma filter_length_le {A : Type} (f : A -> bool) (l : list A) :
  (length (List.filter f l) <= length l)%nat.
Proof.
  induction l as [|x l IH]; simpl; [lia|]. destruct (f x); simpl; lia.
Qed.

(** X6: whatever the decoded value, every record the migration returns is an
    object with a truthy category and a quantity that is neither [null] nor
    [undefined], and the migration returns no more records than the input
    has elements. *)
Theorem migratePrizes_returns_complete_records (parsed : JsVal) :
  Forall complete (migratePrizes parsed)
  /\ (length (migratePrizes parsed) <= length (elements parsed))%nat.
Proof.
  unfold migratePrizes. destruct (Array_isArray parsed); simpl.
  - split.
    + apply Forall_forall. intros r Hr. apply list_elem_of_In, in_map_iff in Hr.
      destruct Hr as (p & <- & _). apply migrateOne_complete.
    + rewrite length_map. apply filter_length_le.
  - split; [constructor|lia].
Qed.

(** X7: an array of records that all have a truthy category and a present
    quantity is returned as it is: what the current version stores, it loads
    back unchanged. *)
Theorem migratePrizes_keeps_complete_records (elems : list JsVal) :
  Forall complete elems -> migratePrizes (JArr elems) = elems.
Proof.
  unfold migratePrizes. simpl. induction 1 as [|p l Hp Hl IH]; [reflexivity|].
  simpl. destruct Hp as ((props & ->) & Hc & Hq). simpl.
  rewrite (migrateOne_fixes_complete (JObj props)) by (split; eauto).
  now rewrite IH.
Qed.

Lemma migratePrizes_keeps_complete_records_witness :
  let stored :=
    [JObj [("id", JStr "a"); ("name", JStr "Bear"); ("quantity", num 0);
           ("category", JStr "ぬいぐるみ")]] in
  migratePrizes (JArr stored) = stored.
Proof.
  intros stored. apply migratePrizes_keeps_complete_records.
  repeat constructor. eauto.
Defined.

(** X8: the older, unguarded migration throws exactly on a value that is not
    an array and on an array with a [null] or [undefined] element; where it
    returns and no element is falsy, [migratePrizes] returns the same
    records. *)
Theorem legacy_migrate_agrees_where_defined (parsed : JsVal) :
  (Legacy.migrate parsed = None
   <-> Array_isArray parsed = false
       \/ exists p, In p (elements parsed) /\ nullish p = true)
  /\ (forall migrated,
        Legacy.migrate parsed = Some migrated ->
        forallb truthy (elements parsed) = true ->
        migratePrizes parsed = migrated).
Proof.
  destruct parsed as [| | | | |elems|]; simpl;
    try (split; [split; [now left|reflexivity]|discriminate]).
  split.
  - destruct (forallb (fun p => negb (nullish p)) elems) eqn:E.
    + split; [discriminate|]. intros [H|(p & Hin & Hp)]; [discriminate|].
      rewrite forallb_forall in E. specialize (E p Hin). rewrite Hp in E. discriminate.
    + split; [|reflexivity]. intros _. right.
      apply not_true_iff_false in E. rewrite forallb_forall in E.
      induction elems as [|p l IH]; [exfalso; apply E; intros ? []|].
      destruct (nullish p) eqn:Hp; [exists p; split; [now left|exact Hp]|].
      destruct IH as (q & Hq & Hn).
      * intros Hall. apply E. intros x [<-|Hx]; [now rewrite Hp|now apply Hall].
      * exists q. split; [now right|exact Hn].
  - intros migrated Hm Htruthy. unfold migratePrizes. simpl.
    destruct (forallb (fun p => negb (nullish p)) elems); [|discriminate].
    injection Hm as <-. f_equal.
    clear -Htruthy. induction elems as [|p l IH]; [reflexivity|].
    simpl in *. apply andb_true_iff in Htruthy. destruct Htruthy as (-> & Hl).
    now rewrite IH.
Qed.

Lemma legacy_migrate_agrees_where_defined_witness :
  migratePrizes (JArr [JObj [("id", JStr "a")]; JStr "x"])
  = [migrateOne (JObj [("id", JStr "a")]); migrateOne (JStr "x")].
Proof.
  apply (proj2 (legacy_migrate_agrees_where_defined
                  (JArr [JObj [("id", JStr "a")]; JStr "x"]))); reflexivity.
Defined.

(** * Further properties of the form *)

(** X9: for a record with non-empty identifier, name and date, a non-zero
    quantity and its optional fields present, opening it in the form and
    submitting the untouched form hands back the very same record, and
    saving that record into a collection in which it is the first record of
    its identifier leaves the collection as it was. *)
Theorem edit_without_changes_is_identity
    (p : Prize) (m : Manufacturer) (ph nt : string) (today freshId : string)
    (l : list Prize) (i : nat) :
  id p <> "" -> name p <> "" -> acquisitionDate p <> "" -> quantity p <> 0 ->
  manufacturer p = Some m -> photo p = Some ph -> notes p = Some nt ->
  l !! i = Some p ->
  (forall (j : nat) q, (j < i)%nat -> l !! j = Some q -> id q <> id p) ->
  (PrizeFormModal.handleSubmit (Some p) freshId (PrizeFormModal.resetForm (Some p) today)).2
  = Some p
  /\ submitInto (Some p) freshId (PrizeFormModal.resetForm (Some p) today) l = l.
Proof.
  intros Hid Hname Hdate Hq Hm Hph Hnt Hi Hfirst.
  assert (Hsub : (PrizeFormModal.handleSubmit (Some p) freshId
                    (PrizeFormModal.resetForm (Some p) today)).2 = Some p).
  { unfold PrizeFormModal.handleSubmit, PrizeFormModal.resetForm,
      PrizeFormModal.string_or, PrizeFormModal.number_or.
    simpl. rewrite Hm, Hph, Hnt. simpl.
    apply String.eqb_neq in Hid, Hname, Hdate. apply Z.eqb_neq in Hq.
    rewrite Hid, Hname, Hdate, Hq. simpl.
    rewrite Hname, Hdate. simpl.
    destruct p as [pi pn pc pm pq pd pp pnt]. simpl in *. subst.
    f_equal. f_equal.
    - now destruct (ph =? "")%string eqn:E; [apply String.eqb_eq in E; subst|].
    - now destruct (nt =? "")%string eqn:E; [apply String.eqb_eq in E; subst|]. }
  split; [exact Hsub|].
  unfold submitInto. rewrite Hsub. unfold savePrize.
  rewrite (findIndex_at (id p) l i p Hi eq_refl Hfirst).
  replace (Z.of_nat i >? -1) with true by (symmetry; apply Z.gtb_lt; lia).
  rewrite Nat2Z.id. now apply list_insert_id.
Qed.

Lemma edit_without_changes_is_identity_witness :
  let bear :=
    {| id := "a"; name := "Bear"; category := Plush; manufacturer := Some Taito;
       quantity := 2; acquisitionDate := "2024-01-01"; photo := Some "";
       notes := Some "gift" |} in
  submitInto (Some bear) "fresh" (PrizeFormModal.resetForm (Some bear) "2025-03-04")
    [Sample.prize "z" "Cat" "2023-05-05" Mascot 1; bear]
  = [Sample.prize "z" "Cat" "2023-05-05" Mascot 1; bear].
Proof.
  intros bear.
  apply (edit_without_changes_is_identity bear Taito "" "gift" "2025-03-04" "fresh"
           [Sample.prize "z" "Cat" "2023-05-05" Mascot 1; bear] 1);
    try discriminate; try reflexivity.
  intros [|j] q Hj; [|lia]. intros [= <-]. discriminate.
Defined.



Lemma resetForm_editing_witness :
  let bear := Sample.prize "a" "Bear" "2024-01-01" Plush 3 in
  PrizeFormModal.quantity (PrizeFormModal.resetForm (Some bear) "2025-03-04") = 3
  /\ PrizeFormModal.acquisitionDate (PrizeFormModal.resetForm (Some bear) "2025-03-04")
     = "2024-01-01".
Proof.
  intros bear.
  destruct (resetForm_editing bear "2025-03-04") as (_ & Hq & Hd & _);
    [discriminate|discriminate|].
  split; [exact Hq|exact Hd].
Defined.

(** * Further properties of the view model *)

Section ComparatorFacts.
Context {A : Type}.
Variable compareFn : A -> A -> Z.
Hypothesis compareFn_trans :
  forall a b c, compareFn a b <= 0 -> compareFn b c <= 0 -> compareFn a c <= 0.
Hypothesis compareFn_total : forall a b, 0 < compareFn a b -> compareFn b a <= 0.

Lemma insert_sorted_ordered (x : A) (l : list A) :
  StronglySorted (fun a b => compareFn a b <= 0) l ->
  StronglySorted (fun a b => compareFn a b <= 0) (insert_sorted compareFn x l).
Proof.
  induction l as [|y l IH]; simpl; intros Hs.
  - constructor; constructor.
  - inversion Hs as [|? ? Hs' Hall]; subst.
    destruct (0 <? compareFn x y) eqn:E.
    + apply Z.ltb_lt in E. constructor; [now apply IH|].
      eapply Permutation_Forall; [symmetry; apply insert_sorted_perm|].
      constructor; [now apply compareFn_total|exact Hall].
    + apply Z.ltb_ge in E. constructor; [exact Hs|].
      constructor; [exact E|].
      eapply Forall_impl; [exact Hall|]. simpl. intros z Hz.
      now apply (compareFn_trans x y z).
Qed.

Lemma Array_sort_ordered (l : list A) :
  StronglySorted (fun a b => compareFn a b <= 0) (Array_sort compareFn l).
Proof.
  induction l as [|x l IH]; simpl; [constructor|]. now apply insert_sorted_ordered.
Qed.
End ComparatorFacts.

Lemma includes_empty (s : string) : includes s "" = true.
Proof. destruct s; reflexivity. Qed.

(** X11: the sort order only reorders: under any two sort orders the view
    shows the same records; it never shows more records than the collection
    has; and with the category filter on ['すべて'] and a search term that is
    empty once trimmed and lower-cased, it shows every record. *)
Theorem sort_order_only_reorders :
  forall toLowerCase trim localeCompare getTime
         (collection : list Prize) searchTerm selectedCategory (o1 o2 : SortOrder),
    Permutation
      (filteredAndSortedPrizes toLowerCase trim localeCompare getTime
         collection searchTerm selectedCategory o1)
      (filteredAndSortedPrizes toLowerCase trim localeCompare getTime
         collection searchTerm selectedCategory o2)
    /\ (length (filteredAndSortedPrizes toLowerCase trim localeCompare getTime
                  collection searchTerm selectedCategory o1) <= length collection)%nat
    /\ (toLowerCase (trim searchTerm) = "" ->
        Permutation
          (filteredAndSortedPrizes toLowerCase trim localeCompare getTime
             collection searchTerm AllCategories o1)
          collection).
Proof.
  intros toLowerCase trim localeCompare getTime collection searchTerm selectedCategory
         o1 o2.
  unfold filteredAndSortedPrizes. split; [|split].
  - rewrite !sortBy_perm. reflexivity.
  - rewrite (Permutation_length (sortBy_perm localeCompare getTime o1 _)).
    apply filter_length_le.
  - intros ->. rewrite sortBy_perm.
    replace (List.filter (matches toLowerCase "" AllCategories) collection)
      with collection; [reflexivity|].
    induction collection as [|p l IH]; [reflexivity|]. simpl.
    unfold matches at 1. rewrite includes_empty. simpl. now rewrite <- IH.
Qed.

Lemma sort_order_only_reorders_witness :
  let l := [Sample.prize "a" "Bear" "2024-01-01" Plush 1;
            Sample.prize "b" "Robot" "2024-06-01" Figure 1] in
  Permutation (Sample.view l "  " AllCategories name_desc) l.
Proof.
  intros l.
  apply (proj2 (proj2 (sort_order_only_reorders
                         Sample.toLowerCase Sample.trim Sample.localeCompare
                         Sample.getTime l "  " AllCategories name_desc name_desc))).
  reflexivity.
Defined.

(** X12: when [localeCompare] is a consistent comparator (transitive, and
    never positive in both directions), the view under ['name-asc'] lists the
    records so that no record precedes one whose name compares smaller, and
    under ['name-desc'] so that none precedes one whose name compares
    larger. *)
Theorem name_orders_sort_by_name :
  forall toLowerCase trim (localeCompare : string -> string -> Z) getTime
         (collection : list Prize) searchTerm selectedCategory,
    (forall a b c, localeCompare a b <= 0 -> localeCompare b c <= 0 ->
                   localeCompare a c <= 0) ->
    (forall a b, 0 < localeCompare a b -> localeCompare b a <= 0) ->
    StronglySorted (fun a b => localeCompare (name a) (name b) <= 0)
      (filteredAndSortedPrizes toLowerCase trim localeCompare getTime
         collection searchTerm selectedCategory name_asc)
    /\ StronglySorted (fun a b => localeCompare (name b) (name a) <= 0)
         (filteredAndSortedPrizes toLowerCase trim localeCompare getTime
            collection searchTerm selectedCategory name_desc).
Proof.
  intros toLowerCase trim localeCompare getTime collection searchTerm selectedCategory
         Htrans Htotal.
  unfold filteredAndSortedPrizes, sortBy. split.
  - apply (Array_sort_ordered (fun a b => localeCompare (name a) (name b))).
    + intros a b c. apply Htrans.
    + intros a b. apply Htotal.
  - apply (Array_sort_ordered (fun a b => localeCompare (name b) (name a))).
    + intros a b c Hab Hbc. now apply (Htrans (name c) (name b) (name a)).
    + intros a b. apply Htotal.
Qed.

Lemma name_orders_sort_by_name_witness :
  let byLength (a b : string) := Z.of_nat (String.length a) - Z.of_nat (String.length b) in
  let l := [Sample.prize "a" "Robot" "2024-01-01" Figure 1;
            Sample.prize "b" "Cat" "2024-06-01" Mascot 1] in
  StronglySorted (fun a b => byLength (name a) (name b) <= 0)
    (filteredAndSortedPrizes Sample.toLowerCase Sample.trim byLength Sample.getTime
       l "" AllCategories name_asc).
Proof.
  intros byLength l.
  apply (proj1 (name_orders_sort_by_name
                  Sample.toLowerCase Sample.trim byLength Sample.getTime
                  l "" AllCategories
                  ltac:(unfold byLength; intros; lia)
                  ltac:(unfold byLength; intros; lia))).
Defined.

(** * The phases of the persistence effect *)

Ltac open_world w :=
  destruct w as [[ps mo pe st sc so ss hy sr tr sq pc] mt nw ts nh sg cl]; simpl in *.

Lemma savingAt_shape (w' w : World) (d : Z) :
  sameShape w' w -> savingAt w d -> savingAt w' d.
Proof.
  intros (Hc & Ht & Hn & Hs & Hr & Hp & Hst & Hl).
  destruct (core_fields _ _ Hc) as (Eps & Ehy & Eref & Eseq & Em).
  unfold savingAt, running. now rewrite Ht, Hn, Hs, Hp, Eps, Ehy, Eref, Eseq, Em.
Qed.

Lemma savedUntil_shape (JSON_stringify : list Prize -> string) (w' w : World) (d : Z) :
  sameShape w' w -> savedUntil JSON_stringify w d -> savedUntil JSON_stringify w' d.
Proof.
  intros (Hc & Ht & Hn & Hs & Hr & Hp & Hst & Hl).
  destruct (core_fields _ _ Hc) as (Eps & Ehy & Eref & Eseq & Em).
  unfold savedUntil, running. now rewrite Ht, Hn, Hs, Hp, Hr, Hst, Eps, Ehy, Em.
Qed.

Lemma resting_shape (w' w : World) : sameShape w' w -> resting w -> resting w'.
Proof.
  intros (Hc & Ht & Hn & Hs & Hr & Hp & Hst & Hl).
  destruct (core_fields _ _ Hc) as (Eps & Ehy & Eref & Eseq & Em).
  unfold resting, running. now rewrite Ht, Hs, Hp, Ehy, Em.
Qed.

Lemma savingAt_covered (w : World) (d : Z) : savingAt w d -> refsCover w.
Proof.
  intros (_ & _ & _ & h & Href & Ht) t Hin. rewrite Ht in Hin.
  destruct Hin as [<-|[]]. now left.
Qed.

Lemma savedUntil_covered (JSON_stringify : list Prize -> string) (w : World) (d : Z) :
  savedUntil JSON_stringify w d -> refsCover w.
Proof.
  intros (_ & _ & _ & _ & h & Href & Ht) t Hin. rewrite Ht in Hin.
  destruct Hin as [<-|[]]. now right.
Qed.

Lemma resting_covered (w : World) : resting w -> refsCover w.
Proof. intros (_ & _ & Ht) t Hin. rewrite Ht in Hin. destruct Hin. Qed.

Lemma cancel_In (ref : option positive) (l : list Timer) (t : Timer) :
  In t (cancel ref l) -> In t l /\ ref <> Some (handle t).
Proof.
  destruct ref as [h|]; simpl; [|now split].
  rewrite filter_In, negb_true_iff, Pos.eqb_neq. intros (Hin & Hne).
  split; [exact Hin|congruence].
Qed.

Lemma cancel_both_nil (sv st : option positive) (l : list Timer) :
  (forall t, In t l -> sv = Some (handle t) \/ st = Some (handle t)) ->
  cancel st (cancel sv l) = [].
Proof.
  intros Hcov. apply cancel_own. intros t Hin.
  apply cancel_In in Hin. destruct Hin as (Hin & Hne).
  destruct (Hcov t Hin) as [H|H]; [contradiction|exact H].
Qed.

Lemma cancelAll_covered (w : World) :
  refsCover w -> cancelAll (app w) (timers w) = [].
Proof.
  intros Hcov. unfold cancelAll.
  destruct (persistCleanup (app w)); rewrite (cancel_both_nil _ _ (timers w) Hcov);
    [now rewrite !cancel_nil|reflexivity].
Qed.

Lemma persistEffect_status (w : World) :
  hydrated (app w) = true ->
  saveStatus (app (persistEffect w)) = saving
  /\ persistCleanup (app (persistEffect w)) = true
  /\ statusTimeoutRef (app (persistEffect w)) = statusTimeoutRef (app w).
Proof.
  open_world w. intros ->. unfold persistEffect, persistCleanupFn.
  destruct pc, sr, tr; simpl; repeat split; reflexivity.
Qed.

Lemma persistEffect_unloaded (w : World) :
  hydrated (app w) = false -> timers w = [] ->
  saveStatus (app (persistEffect w)) = saveStatus (app w)
  /\ persistCleanup (app (persistEffect w)) = false.
Proof.
  open_world w. intros -> ->. unfold persistEffect, persistCleanupFn.
  destruct pc, sr, tr; simpl; split; reflexivity.
Qed.

Lemma persistEffect_savingAt (w : World) :
  mounted w = true -> hydrated (app w) = true -> refsCover w ->
  savingAt (persistEffect w) (now w + 500).
Proof.
  intros Hm Hhy Hcov.
  destruct (persistEffect_hydrated w Hhy) as (Hts & Href & Hseq).
  destruct (persistEffect_status w Hhy) as (Hss & Hpc & _).
  destruct (persistEffect_keeps w)
    as (Hps & _ & _ & Hhy' & _ & _ & _ & Hmt & Hnow & _).
  rewrite (cancelAll_covered w Hcov) in Hts. simpl in Hts.
  split; [repeat split; congruence|]. split; [exact Hss|].
  split; [rewrite Hnow; lia|].
  exists (nextHandle w). split; [exact Href|]. now rewrite Hts, Hseq, Hps.
Qed.

Lemma staged_refs (c : Change) (w : World) :
  statusTimeoutRef (app (staged c w)) = statusTimeoutRef (app w)
  /\ saveStatus (app (staged c w)) = saveStatus (app w)
  /\ persistCleanup (app (staged c w)) = persistCleanup (app w)
  /\ saveSeqRef (app (staged c w)) = saveSeqRef (app w).
Proof.
  destruct c as [prize|prizeId|prizeId q]; simpl; try (repeat split; reflexivity).
  destruct (match prizeToEdit (app w) with
            | Some p => (id p =? prizeId)%string
            | None => false
            end); simpl; repeat split; reflexivity.
Qed.

Section PhaseFacts.
Variable JSON_parse : string -> option JsVal.
Variable JSON_stringify : list Prize -> string.
Variable storeAccepts : string -> bool.
Variable asPrize : JsVal -> Prize.

Lemma change_savingAt (c : Change) (w : World) :
  mounted w = true -> hydrated (app w) = true -> refsCover w ->
  let w' := step JSON_parse JSON_stringify storeAccepts asPrize (eventOf c) w in
  savingAt w' (now w + 500)
  /\ prizes (app w') = applyChange c (prizes (app w))
  /\ setItemCalls w' = setItemCalls w
  /\ storage w' = storage w
  /\ now w' = now w.
Proof.
  intros Hm Hhy Hcov. cbv zeta. rewrite step_change.
  destruct (staged_spec c w) as (Sps & Shy & Sref & Sts & Snow & Smt & Slog & Sst).
  destruct (staged_refs c w) as (Sstat & _).
  destruct (persistEffect_keeps (staged c w))
    as (Kps & _ & _ & _ & _ & _ & _ & _ & Know & Kst & Klog).
  split.
  - rewrite <- Snow. apply persistEffect_savingAt; [congruence..|].
    intros t Hin. rewrite Sts in Hin. rewrite Sref, Sstat. now apply Hcov.
  - repeat split; congruence.
Qed.

Lemma tick_savingAt_wait (w : World) (d : Z) :
  savingAt w d -> now w + 1 < d ->
  savingAt (tick JSON_stringify storeAccepts w) d
  /\ sameData (tick JSON_stringify storeAccepts w) w
  /\ now (tick JSON_stringify storeAccepts w) = now w + 1.
Proof.
  intros ((Hm & Hh & Hp) & Hs & Hb & h & Href & Ht) Hlt.
  open_world w. subst.
  assert (E : (d <=? nw + 1) = false) by (apply Z.leb_gt; lia).
  unfold tick, isDue, savingAt, running, sameData, core. simpl. rewrite E. simpl.
  repeat split; try lia. eauto.
Qed.

Lemma tick_savingAt_fire (w : World) (d : Z) :
  savingAt w d -> d <= now w + 1 ->
  core (tick JSON_stringify storeAccepts w) = core w
  /\ now (tick JSON_stringify storeAccepts w) = now w + 1
  /\ setItemCalls (tick JSON_stringify storeAccepts w)
     = setItemCalls w ++ [JSON_stringify (prizes (app w))]
  /\ (if storeAccepts (JSON_stringify (prizes (app w)))
      then savedUntil JSON_stringify (tick JSON_stringify storeAccepts w) (now w + 1 + 3000)
      else resting (tick JSON_stringify storeAccepts w)
           /\ storage (tick JSON_stringify storeAccepts w) = storage w).
Proof.
  intros ((Hm & Hh & Hp) & Hs & Hb & h & Href & Ht) Hle.
  open_world w. subst.
  assert (E : (d <=? nw + 1) = true) by (apply Z.leb_le; lia).
  unfold tick, isDue, savedUntil, resting, running, core. simpl. rewrite E. simpl.
  rewrite Z.eqb_refl. simpl.
  destruct (storeAccepts (JSON_stringify ps)); simpl; repeat split; try lia; eauto.
Qed.

Lemma tick_savedUntil (w : World) (d : Z) :
  savedUntil JSON_stringify w d ->
  sameData (tick JSON_stringify storeAccepts w) w
  /\ now (tick JSON_stringify storeAccepts w) = now w + 1
  /\ (if d <=? now w + 1 then resting (tick JSON_stringify storeAccepts w)
      else savedUntil JSON_stringify (tick JSON_stringify storeAccepts w) d).
Proof.
  intros ((Hm & Hh & Hp) & Hs & Hb & Hst & h & Href & Ht).
  open_world w. subst.
  unfold tick, isDue, savedUntil, resting, running, sameData, core. simpl.
  destruct (d <=? nw + 1) eqn:E; simpl; repeat split; try lia; eauto.
Qed.

Lemma tick_resting (w : World) :
  resting w ->
  resting (tick JSON_stringify storeAccepts w)
  /\ sameData (tick JSON_stringify storeAccepts w) w
  /\ now (tick JSON_stringify storeAccepts w) = now w + 1.
Proof.
  intros ((Hm & Hh & Hp) & Hs & Ht). open_world w. subst.
  unfold tick, resting, running, sameData, core. simpl. repeat split.
Qed.

Lemma passive_step_shape (e : Event) (w : World) :
  passive e = true -> e <> Tick -> mounted w = true ->
  sameShape (step JSON_parse JSON_stringify storeAccepts asPrize e w) w.
Proof.
  intros Hp Hne Hm.
  destruct e as [|prize|prizeId confirmed|prizeId q| |prize| |term|c|o|];
    try discriminate; try congruence; try (repeat split; reflexivity).
  - simpl. unfold mount. rewrite Hm. repeat split; reflexivity.
  - destruct confirmed; [discriminate|]. repeat split; reflexivity.
Qed.

Lemma unloaded_step (stored : option string) (e : Event) (w : World) :
  unloaded stored w ->
  if isMount e
  then savingAt (step JSON_parse JSON_stringify storeAccepts asPrize e w) (now w + 500)
       /\ setItemCalls (step JSON_parse JSON_stringify storeAccepts asPrize e w) = []
       /\ storage (step JSON_parse JSON_stringify storeAccepts asPrize e w) = stored
       /\ prizes (app (step JSON_parse JSON_stringify storeAccepts asPrize e w))
          = prizes (app (loadEffect JSON_parse asPrize w))
  else unloaded stored (step JSON_parse JSON_stringify storeAccepts asPrize e w).
Proof.
  intros (Hd & Hss & Hpc).
  pose proof (dormant_step JSON_parse JSON_stringify storeAccepts asPrize stored e w Hd)
    as Hstep.
  pose proof Hd as (Hhy & Hmt & Hts & Hlog & Hst).
  assert (Hchange : forall c,
            saveStatus (app (step JSON_parse JSON_stringify storeAccepts asPrize
                               (eventOf c) w)) = idle
            /\ persistCleanup (app (step JSON_parse JSON_stringify storeAccepts asPrize
                                      (eventOf c) w)) = false).
  { intros c. rewrite step_change.
    destruct (staged_spec c w) as (_ & Shy & _ & Sts & _).
    destruct (staged_refs c w) as (_ & Sss & _).
    destruct (persistEffect_unloaded (staged c w)) as (Uss & Upc); [congruence..|].
    split; congruence. }
  destruct e as [|prize|prizeId confirmed|prizeId q| |prize| |term|c|o|];
    simpl isMount in *; cbv iota in *;
    try (split; [exact Hstep|split; assumption]).
  - simpl. unfold mount. rewrite Hmt.
    destruct (loadEffect_hydrates JSON_parse asPrize (set_mounted true w))
      as (Lhy & Lts & Lmt & Llog & Lst).
    destruct (persistEffect_keeps (loadEffect JSON_parse asPrize (set_mounted true w)))
      as (Kps & _ & _ & _ & _ & _ & _ & _ & _ & Kst & Klog).
    assert (Enow : now (loadEffect JSON_parse asPrize (set_mounted true w)) = now w).
    { unfold loadEffect. simpl. destruct (storage w) as [text|]; [|reflexivity].
      destruct (text =? "")%string; [reflexivity|].
      destruct (JSON_parse text); reflexivity. }
    assert (Eps : prizes (app (loadEffect JSON_parse asPrize (set_mounted true w)))
                  = prizes (app (loadEffect JSON_parse asPrize w))).
    { unfold loadEffect. simpl. destruct (storage w) as [text|]; [|reflexivity].
      destruct (text =? "")%string; [reflexivity|].
      destruct (JSON_parse text); reflexivity. }
    split.
    + rewrite <- Enow.
      apply persistEffect_savingAt; [now rewrite Lmt|exact Lhy|].
      intros t Hin. rewrite Lts in Hin. simpl in Hin. rewrite Hts in Hin. destruct Hin.
    + rewrite Klog, Llog, Kst, Lst, Kps. simpl. repeat split; assumption.
  - split; [exact Hstep|apply (Hchange (Saved prize))].
  - destruct confirmed.
    + split; [exact Hstep|apply (Hchange (Deleted prizeId))].
    + split; [exact Hd|split; assumption].
  - split; [exact Hstep|apply (Hchange (Requantified prizeId q))].
  - split; [exact Hstep|]. simpl. unfold tick. rewrite Hts. simpl. split; assumption.
Qed.

Lemma phased_step (stored : option string) (e : Event) (w : World) :
  phased JSON_stringify stored w ->
  phased JSON_stringify stored (step JSON_parse JSON_stringify storeAccepts asPrize e w).
Proof.
  intros Hph.
  destruct Hph as [Hu|Hlive].
  { pose proof (unloaded_step stored e w Hu) as H.
    destruct (isMount e); [right; left; exists (now w + 500); apply H|now left]. }
  assert (Hbase : mounted w = true /\ hydrated (app w) = true /\ refsCover w).
  { destruct Hlive as [[d H]|[[d H]|H]].
    - split; [apply H|]. split; [apply H|]. eapply savingAt_covered; eauto.
    - split; [apply H|]. split; [apply H|]. eapply savedUntil_covered; eauto.
    - split; [apply H|]. split; [apply H|]. now apply resting_covered. }
  destruct Hbase as (Hm & Hhy & Hcov).
  assert (Hchange : forall c,
            phased JSON_stringify stored
              (step JSON_parse JSON_stringify storeAccepts asPrize (eventOf c) w)).
  { intros c. right. left. exists (now w + 500).
    now apply change_savingAt. }
  assert (Hshape : forall w', sameShape w' w -> phased JSON_stringify stored w').
  { intros w' Hs. right. destruct Hlive as [[d H]|[[d H]|H]].
    - left. exists d. eapply savingAt_shape; eauto.
    - right. left. exists d. eapply savedUntil_shape; eauto.
    - right. right. eapply resting_shape; eauto. }
  destruct e as [|prize|prizeId confirmed|prizeId q| |prize| |term|c|o|];
    try (apply Hshape; apply passive_step_shape; [reflexivity|discriminate|exact Hm]).
  - apply (Hchange (Saved prize)).
  - destruct confirmed; [apply (Hchange (Deleted prizeId))|].
    apply Hshape. apply passive_step_shape; [reflexivity|discriminate|exact Hm].
  - apply (Hchange (Requantified prizeId q)).
  - simpl. right. destruct Hlive as [[d H]|[[d H]|H]].
    + destruct (Z.le_gt_cases d (now w + 1)) as [Hle|Hgt].
      * destruct (tick_savingAt_fire w d H Hle) as (_ & _ & _ & Hnext).
        destruct (storeAccepts (JSON_stringify (prizes (app w)))).
        -- right. left. eauto.
        -- right. right. apply Hnext.
      * left. exists d. apply tick_savingAt_wait; [exact H|lia].
    + destruct (tick_savedUntil w d H) as (_ & _ & Hnext).
      destruct (d <=? now w + 1); [right; right; exact Hnext|right; left; eauto].
    + right. right. now apply tick_resting.
Qed.

Lemma phased_init (stored : option string) : phased JSON_stringify stored (init stored).
Proof. left. repeat split. Qed.

Lemma phased_run (stored : option string) (events : list Event) (w : World) :
  phased JSON_stringify stored w ->
  phased JSON_stringify stored
    (run JSON_parse JSON_stringify storeAccepts asPrize events w).
Proof.
  revert w. induction events as [|e events IH]; intros w Hw; [exact Hw|].
  simpl. apply IH. now apply phased_step.
Qed.
End PhaseFacts.

Section PhaseTiming.
Variable JSON_parse : string -> option JsVal.
Variable JSON_stringify : list Prize -> string.
Variable storeAccepts : string -> bool.
Variable asPrize : JsVal -> Prize.

Lemma ticks_S (n : nat) (w : World) :
  ticks JSON_stringify storeAccepts (S n) w
  = tick JSON_stringify storeAccepts (ticks JSON_stringify storeAccepts n w).
Proof. reflexivity. Qed.

Lemma ticks_savingAt_wait (n : nat) (w : World) (d : Z) :
  savingAt w d -> now w + Z.of_nat n < d ->
  savingAt (ticks JSON_stringify storeAccepts n w) d
  /\ sameData (ticks JSON_stringify storeAccepts n w) w
  /\ now (ticks JSON_stringify storeAccepts n w) = now w + Z.of_nat n.
Proof.
  intros Hs. induction n as [|n IH]; intros Hlt.
  - simpl. split; [exact Hs|]. split; [apply sameData_refl|lia].
  - destruct IH as (Hs' & Hsame & Hnow); [lia|]. rewrite ticks_S.
    destruct (tick_savingAt_wait JSON_stringify storeAccepts _ d Hs')
      as (Hs'' & Hsame' & Hnow'); [lia|].
    split; [exact Hs''|]. split; [eapply sameData_trans; eauto|lia].
Qed.

Lemma ticks_savedUntil_wait (n : nat) (w : World) (d : Z) :
  savedUntil JSON_stringify w d -> now w + Z.of_nat n < d ->
  savedUntil JSON_stringify (ticks JSON_stringify storeAccepts n w) d
  /\ sameData (ticks JSON_stringify storeAccepts n w) w
  /\ now (ticks JSON_stringify storeAccepts n w) = now w + Z.of_nat n.
Proof.
  intros Hs. induction n as [|n IH]; intros Hlt.
  - simpl. split; [exact Hs|]. split; [apply sameData_refl|lia].
  - destruct IH as (Hs' & Hsame & Hnow); [lia|]. rewrite ticks_S.
    destruct (tick_savedUntil JSON_stringify storeAccepts _ d Hs')
      as (Hsame' & Hnow' & Hnext).
    replace (d <=? now (ticks JSON_stringify storeAccepts n w) + 1) with false in Hnext
      by (symmetry; apply Z.leb_gt; lia).
    split; [exact Hnext|]. split; [eapply sameData_trans; eauto|lia].
Qed.

Lemma ticks_resting (n : nat) (w : World) :
  resting w ->
  resting (ticks JSON_stringify storeAccepts n w)
  /\ sameData (ticks JSON_stringify storeAccepts n w) w.
Proof.
  intros Hr. induction n as [|n (Hr' & Hsame)].
  - split; [exact Hr|apply sameData_refl].
  - rewrite ticks_S.
    destruct (tick_resting JSON_stringify storeAccepts _ Hr') as (Hr'' & Hsame' & _).
    split; [exact Hr''|eapply sameData_trans; eauto].
Qed.

(** Once the write is done, time alone writes nothing more. *)
Lemma ticks_after_write (n : nat) (w : World) :
  (exists d, savedUntil JSON_stringify w d) \/ resting w ->
  ((exists d, savedUntil JSON_stringify (ticks JSON_stringify storeAccepts n w) d)
   \/ resting (ticks JSON_stringify storeAccepts n w))
  /\ sameData (ticks JSON_stringify storeAccepts n w) w.
Proof.
  intros H. induction n as [|n (IH & Hsame)].
  - split; [exact H|apply sameData_refl].
  - rewrite ticks_S. destruct IH as [[d Hs]|Hr].
    + destruct (tick_savedUntil JSON_stringify storeAccepts _ d Hs)
        as (Hsame' & _ & Hnext).
      split; [|eapply sameData_trans; eauto].
      destruct (d <=? _); [now right|left; eauto].
    + destruct (tick_resting JSON_stringify storeAccepts _ Hr) as (Hr' & Hsame' & _).
      split; [now right|eapply sameData_trans; eauto].
Qed.

(** The 500th time unit after a change performs the write. *)
Lemma ticks_500 (w : World) :
  savingAt w (now w + 500) ->
  core (ticks JSON_stringify storeAccepts 500 w) = core w
  /\ now (ticks JSON_stringify storeAccepts 500 w) = now w + 500
  /\ setItemCalls (ticks JSON_stringify storeAccepts 500 w)
     = setItemCalls w ++ [JSON_stringify (prizes (app w))]
  /\ (if storeAccepts (JSON_stringify (prizes (app w)))
      then savedUntil JSON_stringify (ticks JSON_stringify storeAccepts 500 w)
             (now w + 3500)
      else resting (ticks JSON_stringify storeAccepts 500 w)
           /\ storage (ticks JSON_stringify storeAccepts 500 w) = storage w).
Proof.
  intros Hs.
  destruct (ticks_savingAt_wait 499 w _ Hs) as (Hs' & (Hc & Hl & Hst) & Hnow); [lia|].
  rewrite (ticks_S 499 w).
  set (w1 := ticks JSON_stringify storeAccepts 499 w) in *.
  destruct (tick_savingAt_fire JSON_stringify storeAccepts w1 _ Hs')
    as (Hc' & Hnow' & Hl' & Hnext); [lia|].
  destruct (core_fields _ _ Hc) as (Eps & _).
  rewrite Eps in Hl', Hnext.
  split; [congruence|]. split; [lia|]. split; [congruence|].
  destruct (storeAccepts (JSON_stringify (prizes (app w)))).
  - replace (now w + 3500) with (now w1 + 1 + 3000) by lia. exact Hnext.
  - destruct Hnext as (Hr & Hst'). split; [exact Hr|congruence].
Qed.

Lemma elapsed_nonneg (events : list Event) : 0 <= elapsed events.
Proof. induction events as [|[] rest IH]; simpl; lia. Qed.

Lemma passive_after_write (events : list Event) (w : World) :
  forallb passive events = true ->
  (exists d, savedUntil JSON_stringify w d) \/ resting w ->
  sameData (run JSON_parse JSON_stringify storeAccepts asPrize events w) w.
Proof.
  revert w. induction events as [|e rest IH]; intros w Hp Hw; [apply sameData_refl|].
  simpl in Hp. apply andb_true_iff in Hp. destruct Hp as (He & Hrest).
  assert (Hm : mounted w = true) by (destruct Hw as [[d H]|H]; apply H).
  simpl. eapply sameData_trans; [apply IH; [exact Hrest|]|].
  - destruct e; try discriminate;
      try (match goal with
           | |- context [step _ _ _ _ ?e w] =>
               pose proof (passive_step_shape JSON_parse JSON_stringify storeAccepts
                             asPrize e w He ltac:(discriminate) Hm) as Hshape
           end;
           destruct Hw as [[d H]|H];
           [left; exists d; eapply savedUntil_shape; eauto
           |right; eapply resting_shape; eauto]).
    apply (ticks_after_write 1 w Hw).
  - destruct e; try discriminate;
      try (match goal with
           | |- context [step _ _ _ _ ?e w] =>
               destruct (passive_step_shape JSON_parse JSON_stringify storeAccepts
                           asPrize e w He ltac:(discriminate) Hm)
                 as (Hc & _ & _ & _ & _ & _ & Hst & Hl)
           end; repeat split; assumption).
    apply (ticks_after_write 1 w Hw).
Qed.

Lemma passive_saving (events : list Event) (w : World) (d : Z) :
  forallb passive events = true -> savingAt w d ->
  core (run JSON_parse JSON_stringify storeAccepts asPrize events w) = core w
  /\ setItemCalls (run JSON_parse JSON_stringify storeAccepts asPrize events w)
     = setItemCalls w
       ++ (if d <=? now w + elapsed events then [JSON_stringify (prizes (app w))] else []).
Proof.
  revert w. induction events as [|e rest IH]; intros w Hp Hs.
  - simpl. destruct Hs as (_ & _ & Hb & _).
    replace (d <=? now w + 0) with false by (symmetry; apply Z.leb_gt; lia).
    rewrite app_nil_r. split; reflexivity.
  - simpl in Hp. apply andb_true_iff in Hp. destruct Hp as (He & Hrest).
    assert (Hm : mounted w = true) by apply Hs.
    assert (Hquiet : forall w1,
              sameShape w1 w ->
              core (run JSON_parse JSON_stringify storeAccepts asPrize rest w1) = core w
              /\ setItemCalls (run JSON_parse JSON_stringify storeAccepts asPrize rest w1)
                 = setItemCalls w
                   ++ (if d <=? now w + elapsed rest
                       then [JSON_stringify (prizes (app w))] else [])).
    { intros w1 Hshape.
      destruct (IH w1 Hrest (savingAt_shape w1 w d Hshape Hs)) as (Hc & Hl).
      destruct Hshape as (Hc1 & _ & Hn1 & _ & _ & _ & _ & Hl1).
      destruct (core_fields _ _ Hc1) as (Eps & _).
      rewrite Hc, Hl, Hc1, Hl1, Hn1, Eps. split; reflexivity. }
    destruct e; try discriminate; simpl elapsed;
      try (apply Hquiet; apply passive_step_shape; [exact He|discriminate|exact Hm]).
    simpl run.
    destruct (Z.le_gt_cases d (now w + 1)) as [Hle|Hgt].
    + destruct (tick_savingAt_fire JSON_stringify storeAccepts w d Hs Hle)
        as (Hc & Hn & Hl & Hnext).
      assert (Hafter : (exists d', savedUntil JSON_stringify
                                     (tick JSON_stringify storeAccepts w) d')
                       \/ resting (tick JSON_stringify storeAccepts w)).
      { destruct (storeAccepts (JSON_stringify (prizes (app w))));
          [left; eauto|right; apply Hnext]. }
      destruct (passive_after_write rest _ Hrest Hafter) as (Hc' & Hl' & _).
      pose proof (elapsed_nonneg rest) as Hpos.
      replace (d <=? now w + (1 + elapsed rest)) with true
        by (symmetry; apply Z.leb_le; lia).
      split; congruence.
    + destruct (tick_savingAt_wait JSON_stringify storeAccepts w d Hs Hgt)
        as (Hs' & (Hc & Hl & _) & Hn).
      destruct (IH _ Hrest Hs') as (Hc' & Hl').
      destruct (core_fields _ _ Hc) as (Eps & _).
      rewrite Hc', Hl', Hc, Hl, Hn, Eps.
      replace (now w + 1 + elapsed rest) with (now w + (1 + elapsed rest)) by lia.
      split; reflexivity.
Qed.

Lemma tick_no_timers (w : World) :
  timers w = [] ->
  timers (tick JSON_stringify storeAccepts w) = []
  /\ setItemCalls (tick JSON_stringify storeAccepts w) = setItemCalls w
  /\ storage (tick JSON_stringify storeAccepts w) = storage w.
Proof. open_world w. intros ->. unfold tick. simpl. repeat split. Qed.

Lemma ticks_no_timers (n : nat) (w : World) :
  timers w = [] ->
  timers (ticks JSON_stringify storeAccepts n w) = []
  /\ setItemCalls (ticks JSON_stringify storeAccepts n w) = setItemCalls w
  /\ storage (ticks JSON_stringify storeAccepts n w) = storage w.
Proof.
  intros Ht. induction n as [|n (IHt & IHl & IHs)]; [repeat split; assumption|].
  rewrite ticks_S. destruct (tick_no_timers _ IHt) as (Ht' & Hl' & Hs').
  repeat split; congruence.
Qed.

Lemma unmount_spec (stored : option string) (w : World) :
  phased JSON_stringify stored w ->
  timers (unmount w) = []
  /\ setItemCalls (unmount w) = setItemCalls w
  /\ storage (unmount w) = storage w.
Proof.
  intros Hph.
  assert (Hfn : timers (persistCleanupFn w)
                = cancel (statusTimeoutRef (app w)) (cancel (saveTimeoutRef (app w)) (timers w))
                /\ setItemCalls (persistCleanupFn w) = setItemCalls w
                /\ storage (persistCleanupFn w) = storage w).
  { open_world w. unfold persistCleanupFn. destruct sr, tr; simpl; repeat split. }
  destruct Hfn as (Hts & Hl & Hs).
  assert (Hlive : refsCover w -> persistCleanup (app w) = true ->
                  timers (unmount w) = []
                  /\ setItemCalls (unmount w) = setItemCalls w
                  /\ storage (unmount w) = storage w).
  { intros Hcov Hpc. unfold unmount. rewrite Hpc, Hts, Hl, Hs.
    rewrite (cancel_both_nil _ _ _ Hcov). repeat split. }
  destruct Hph as [((_ & _ & Ht & _) & _ & Hpc)|[[d H]|[[d H]|H]]].
  - unfold unmount. rewrite Hpc. repeat split. exact Ht.
  - apply Hlive; [eapply savingAt_covered; eauto|apply H].
  - apply Hlive; [eapply savedUntil_covered; eauto|apply H].
  - apply Hlive; [now apply resting_covered|apply H].
Qed.
End PhaseTiming.

Section PhaseReach.
Variable JSON_parse : string -> option JsVal.
Variable JSON_stringify : list Prize -> string.
Variable storeAccepts : string -> bool.
Variable asPrize : JsVal -> Prize.

Lemma phased_reachable (stored : option string) (events : list Event) :
  phased JSON_stringify stored
    (run JSON_parse JSON_stringify storeAccepts asPrize events (init stored)).
Proof. apply phased_run, phased_init. Qed.

Lemma hydrated_base (stored : option string) (w : World) :
  phased JSON_stringify stored w -> hydrated (app w) = true ->
  mounted w = true /\ refsCover w.
Proof.
  intros [((Hhy & _) & _)|[[d H]|[[d H]|H]]] Hh.
  - congruence.
  - split; [apply H|eapply savingAt_covered; eauto].
  - split; [apply H|eapply savedUntil_covered; eauto].
  - split; [apply H|now apply resting_covered].
Qed.

Lemma run_snoc (events : list Event) (e : Event) (w : World) :
  run JSON_parse JSON_stringify storeAccepts asPrize (events ++ [e]) w
  = step JSON_parse JSON_stringify storeAccepts asPrize e
      (run JSON_parse JSON_stringify storeAccepts asPrize events w).
Proof. unfold run. now rewrite fold_left_app. Qed.

End PhaseReach.

(** X13: in every reachable state at most one timer is pending and it is
    never overdue: a write due within 500 time units, carrying the current
    generation and the current collection, exactly when the indicator shows
    "saving"; a revert of the indicator due within 3000 time units exactly
    when it shows "saved"; and while it shows "saved" the store holds the
    serialization of the current collection. *)
Theorem indicator_tracks_the_pending_timer :
  forall JSON_parse JSON_stringify storeAccepts asPrize
         (stored : option string) (events : list Event),
    let w := run JSON_parse JSON_stringify storeAccepts asPrize events (init stored) in
    (length (timers w) <= 1)%nat
    /\ (saveStatus (app w) = saving
        <-> exists h d,
              timers w
              = [{| handle := h; due := d;
                    callback := SaveCallback (saveSeqRef (app w)) (prizes (app w)) |}]
              /\ now w < d <= now w + 500)
    /\ (saveStatus (app w) = saved
        <-> exists h d,
              timers w = [{| handle := h; due := d; callback := StatusCallback |}]
              /\ now w < d <= now w + 3000)
    /\ (saveStatus (app w) = idle <-> timers w = [])
    /\ (saveStatus (app w) = saved ->
        storage w = Some (JSON_stringify (prizes (app w)))).
Proof.
  intros JSON_parse JSON_stringify storeAccepts asPrize stored events w.
  pose proof (phased_reachable JSON_parse JSON_stringify storeAccepts asPrize
                stored events) as Hph.
  fold w in Hph.
  destruct Hph as [((_ & _ & Ht & _) & Hs & _)|[[d H]|[[d H]|H]]].
  - rewrite Ht, Hs. simpl. split; [lia|]. repeat split; try discriminate.
    + intros (h & d & Hd & _). discriminate.
    + intros (h & d & Hd & _). discriminate.
  - destruct H as (_ & Hs & Hb & h & _ & Ht). rewrite Ht, Hs. simpl.
    split; [lia|]. repeat split; try discriminate; eauto.
    intros (h' & d' & Hd & _). discriminate.
  - destruct H as (_ & Hs & Hb & Hst & h & _ & Ht). rewrite Ht, Hs. simpl.
    split; [lia|]. repeat split; try discriminate; eauto.
    intros (h' & d' & Hd & _). discriminate.
  - destruct H as (_ & Hs & Ht). rewrite Ht, Hs. simpl.
    split; [lia|]. repeat split; try discriminate.
    + intros (h & d & Hd & _). discriminate.
    + intros (h & d & Hd & _). discriminate.
Qed.

Lemma indicator_tracks_the_pending_timer_witness :
  let w :=
    Sample.ticks 600
      (Sample.run [Mount; SavePrize (Sample.prize "a" "Bear" "2024-01-01" Plush 1)]
                  (init None)) in
  saveStatus (app w) = saved
  /\ storage w = Some (Sample.stringify [Sample.prize "a" "Bear" "2024-01-01" Plush 1]).
Proof.
  intros w.
  assert (Hs : saveStatus (app w) = saved) by (vm_compute; reflexivity).
  split; [exact Hs|].
  destruct (indicator_tracks_the_pending_timer
              Sample.parse Sample.stringify Sample.accepts Sample.asPrize None
              ([Mount; SavePrize (Sample.prize "a" "Bear" "2024-01-01" Plush 1)]
                 ++ repeat Tick 600))
    as (_ & _ & _ & _ & Hsync).
  refine (eq_trans _ (eq_trans (Hsync _) _)); vm_compute; reflexivity.
Defined.

(** X14: the indicator's cycle.  After a change made in a reachable hydrated
    state and left alone, the indicator shows "saving" and nothing is
    written for the first 499 time units; if the store accepts the value,
    the indicator shows "saved" from the 500th to the 3499th time unit, and
    "idle" from the 3500th on, the store holding the new collection; if the
    store refuses the value, the indicator is "idle" from the 500th time
    unit on and the store is as before. *)
Theorem indicator_cycle_after_change :
  forall JSON_parse JSON_stringify storeAccepts asPrize
         (stored : option string) (events : list Event) (c : Change) (k : nat),
    let w := run JSON_parse JSON_stringify storeAccepts asPrize events (init stored) in
    hydrated (app w) = true ->
    let text := JSON_stringify (applyChange c (prizes (app w))) in
    let w' :=
      ticks JSON_stringify storeAccepts k
        (step JSON_parse JSON_stringify storeAccepts asPrize (eventOf c) w) in
    ((k < 500)%nat ->
     saveStatus (app w') = saving
     /\ setItemCalls w' = setItemCalls w /\ storage w' = storage w)
    /\ (storeAccepts text = true -> (500 <= k < 3500)%nat ->
        saveStatus (app w') = saved /\ storage w' = Some text)
    /\ (storeAccepts text = true -> (3500 <= k)%nat ->
        saveStatus (app w') = idle /\ storage w' = Some text /\ timers w' = [])
    /\ (storeAccepts text = false -> (500 <= k)%nat ->
        saveStatus (app w') = idle /\ storage w' = storage w /\ timers w' = []).
Proof.
  intros JSON_parse JSON_stringify storeAccepts asPrize stored events c k w Hhy text w'.
  destruct (hydrated_base JSON_stringify stored w
              (phased_reachable JSON_parse JSON_stringify storeAccepts asPrize stored events)
              Hhy) as (Hm & Hcov).
  destruct (change_savingAt JSON_parse JSON_stringify storeAccepts asPrize c w Hm Hhy Hcov)
    as (Hs & Eps & Elog & Est & Enow).
  set (w1 := step JSON_parse JSON_stringify storeAccepts asPrize (eventOf c) w) in *.
  rewrite <- Enow in Hs. subst text w'. rewrite <- Eps.
  pose proof (ticks_500 JSON_stringify storeAccepts w1 Hs) as (Hc5 & Hn5 & Hl5 & Hnext).
  set (w2 := ticks JSON_stringify storeAccepts 500 w1) in *.
  destruct (core_fields _ _ Hc5) as (Eps5 & _).
  split; [|split; [|split]].
  - intros Hk.
    destruct (ticks_savingAt_wait JSON_stringify storeAccepts k w1 _ Hs)
      as (Hs' & (_ & Hl & Hst) & _); [lia|].
    split; [apply Hs'|]. split; congruence.
  - intros Hok Hk. rewrite Hok in Hnext.
    assert (Ek : k = ((k - 500) + 500)%nat) by lia.
    rewrite Ek, ticks_add. fold w2.
    destruct (ticks_savedUntil_wait JSON_stringify storeAccepts (k - 500) w2 _ Hnext)
      as (Hsv & (Hc & _ & _) & _); [lia|].
    destruct (core_fields _ _ Hc) as (Eps' & _).
    destruct Hsv as (_ & Hstat & _ & Hsto & _).
    split; [exact Hstat|]. rewrite Hsto. congruence.
  - intros Hok Hk. rewrite Hok in Hnext.
    assert (Ek : k = ((k - 3500) + (1 + (2999 + 500)))%nat) by lia.
    rewrite Ek, !ticks_add. fold w2.
    destruct (ticks_savedUntil_wait JSON_stringify storeAccepts 2999 w2 _ Hnext)
      as (Hsv & (Hc & _ & Hsto) & Hn); [lia|].
    set (w3 := ticks JSON_stringify storeAccepts 2999 w2) in *.
    destruct (tick_savedUntil JSON_stringify storeAccepts w3 _ Hsv)
      as ((Hc4 & _ & Hsto4) & _ & Hrest).
    replace (now w1 + 3500 <=? now w3 + 1) with true in Hrest
      by (symmetry; apply Z.leb_le; lia).
    change (ticks JSON_stringify storeAccepts 1 w3)
      with (tick JSON_stringify storeAccepts w3).
    destruct (ticks_resting JSON_stringify storeAccepts (k - 3500) _ Hrest)
      as (Hr & (_ & _ & Hsto5)).
    destruct Hnext as (_ & _ & _ & Hsto2 & _).
    destruct Hr as (_ & Hstat & Ht).
    split; [exact Hstat|]. split; [congruence|exact Ht].
  - intros Hno Hk. rewrite Hno in Hnext. destruct Hnext as (Hr & Hsto).
    assert (Ek : k = ((k - 500) + 500)%nat) by lia.
    rewrite Ek, ticks_add. fold w2.
    destruct (ticks_resting JSON_stringify storeAccepts (k - 500) w2 Hr)
      as ((_ & Hstat & Ht) & (_ & _ & Hsto')).
    split; [exact Hstat|]. split; [congruence|exact Ht].
Qed.

Lemma indicator_cycle_after_change_witness :
  let w1 :=
    Sample.step (SavePrize (Sample.prize "a" "Bear" "2024-01-01" Plush 1))
      (Sample.run [Mount] (init None)) in
  saveStatus (app (Sample.ticks 499 w1)) = saving
  /\ saveStatus (app (Sample.ticks 500 w1)) = saved
  /\ saveStatus (app (Sample.ticks 3500 w1)) = idle.
Proof.
  intros w1.
  pose proof (indicator_cycle_after_change
                Sample.parse Sample.stringify Sample.accepts Sample.asPrize None [Mount]
                (Saved (Sample.prize "a" "Bear" "2024-01-01" Plush 1))) as H.
  split; [|split].
  - apply (proj1 (H 499%nat eq_refl)). lia.
  - apply (proj1 (proj2 (H 500%nat eq_refl))); [reflexivity|lia].
  - apply (proj1 (proj2 (proj2 (H 3500%nat eq_refl)))); [reflexivity|lia].
Defined.

(** X15: only a change of the collection restarts the delay.  After a change
    made in a reachable hydrated state, whatever events follow that do not
    replace the collection (opening or closing the form, typing a search
    term, choosing a filter or a sort order, a declined deletion, time
    passing), the store receives the new collection exactly once if at least
    500 time units have passed among them, and nothing otherwise. *)
Theorem only_changes_restart_the_delay :
  forall JSON_parse JSON_stringify storeAccepts asPrize
         (stored : option string) (events : list Event) (c : Change)
         (others : list Event),
    let w := run JSON_parse JSON_stringify storeAccepts asPrize events (init stored) in
    hydrated (app w) = true ->
    forallb passive others = true ->
    let w' :=
      run JSON_parse JSON_stringify storeAccepts asPrize others
        (step JSON_parse JSON_stringify storeAccepts asPrize (eventOf c) w) in
    prizes (app w') = applyChange c (prizes (app w))
    /\ setItemCalls w'
       = setItemCalls w
         ++ (if 500 <=? elapsed others
             then [JSON_stringify (applyChange c (prizes (app w)))] else []).
Proof.
  intros JSON_parse JSON_stringify storeAccepts asPrize stored events c others w Hhy Hp w'.
  destruct (hydrated_base JSON_stringify stored w
              (phased_reachable JSON_parse JSON_stringify storeAccepts asPrize stored events)
              Hhy) as (Hm & Hcov).
  destruct (change_savingAt JSON_parse JSON_stringify storeAccepts asPrize c w Hm Hhy Hcov)
    as (Hs & Eps & Elog & Est & Enow).
  set (w1 := step JSON_parse JSON_stringify storeAccepts asPrize (eventOf c) w) in *.
  destruct (passive_saving JSON_parse JSON_stringify storeAccepts asPrize others w1 _ Hp Hs)
    as (Hc & Hl).
  destruct (core_fields _ _ Hc) as (Eps' & _).
  subst w'. split; [congruence|].
  rewrite Hl, Elog, Eps, Enow.
  replace (now w + 500 <=? now w + elapsed others) with (500 <=? elapsed others);
    [reflexivity|].
  destruct (500 <=? elapsed others) eqn:E; symmetry.
  - apply Z.leb_le in E. apply Z.leb_le. lia.
  - apply Z.leb_gt in E. apply Z.leb_gt. lia.
Qed.

Lemma only_changes_restart_the_delay_witness :
  let w' :=
    Sample.run (repeat Tick 300 ++ [SetSearchTerm "be"; DeletePrize "a" false; OpenAddModal]
                  ++ repeat Tick 200)
      (Sample.step (SavePrize (Sample.prize "a" "Bear" "2024-01-01" Plush 1))
         (Sample.run [Mount] (init None))) in
  setItemCalls w' = [Sample.stringify [Sample.prize "a" "Bear" "2024-01-01" Plush 1]].
Proof.
  intros w'.
  destruct (only_changes_restart_the_delay
              Sample.parse Sample.stringify Sample.accepts Sample.asPrize None [Mount]
              (Saved (Sample.prize "a" "Bear" "2024-01-01" Plush 1))
              (repeat Tick 300 ++ [SetSearchTerm "be"; DeletePrize "a" false; OpenAddModal]
                 ++ repeat Tick 200))
    as (_ & Hlog).
  - reflexivity.
  - vm_compute. reflexivity.
  - refine (eq_trans Hlog _). vm_compute. reflexivity.
Defined.

(** X16: teardown cancels what is pending.  From any reachable state, after
    the unmount no timer is left, so no amount of time writes anything or
    changes the store; in particular a change made in a hydrated state and
    followed by the unmount before its write was due is never written. *)
Theorem unmount_cancels_pending_write :
  forall JSON_parse JSON_stringify storeAccepts asPrize
         (stored : option string) (events : list Event) (n : nat),
    let w := run JSON_parse JSON_stringify storeAccepts asPrize events (init stored) in
    timers (unmount w) = []
    /\ setItemCalls (ticks JSON_stringify storeAccepts n (unmount w)) = setItemCalls w
    /\ storage (ticks JSON_stringify storeAccepts n (unmount w)) = storage w
    /\ (forall (c : Change) (gap : nat),
          hydrated (app w) = true -> (gap < 500)%nat ->
          let w1 :=
            ticks JSON_stringify storeAccepts gap
              (step JSON_parse JSON_stringify storeAccepts asPrize (eventOf c) w) in
          prizes (app w1) = applyChange c (prizes (app w))
          /\ setItemCalls (ticks JSON_stringify storeAccepts n (unmount w1))
             = setItemCalls w
          /\ storage (ticks JSON_stringify storeAccepts n (unmount w1)) = storage w).
Proof.
  intros JSON_parse JSON_stringify storeAccepts asPrize stored events n w.
  pose proof (phased_reachable JSON_parse JSON_stringify storeAccepts asPrize
                stored events) as Hph.
  fold w in Hph.
  destruct (unmount_spec JSON_stringify stored w Hph) as (Ht & Hl & Hs).
  destruct (ticks_no_timers JSON_stringify storeAccepts n (unmount w) Ht)
    as (_ & Hl' & Hs').
  split; [exact Ht|]. split; [congruence|]. split; [congruence|].
  intros c gap Hhy Hgap w1.
  destruct (hydrated_base JSON_stringify stored w Hph Hhy) as (Hm & Hcov).
  destruct (change_savingAt JSON_parse JSON_stringify storeAccepts asPrize c w Hm Hhy Hcov)
    as (Hsv & Eps & Elog & Est & Enow).
  rewrite <- Enow in Hsv.
  destruct (ticks_savingAt_wait JSON_stringify storeAccepts gap _ _ Hsv)
    as (Hsv' & (Hc & Hlg & Hsg) & _); [lia|].
  fold w1 in Hsv', Hc, Hlg, Hsg.
  destruct (core_fields _ _ Hc) as (Eps' & _).
  assert (Hph1 : phased JSON_stringify stored w1) by (right; left; eauto).
  destruct (unmount_spec JSON_stringify stored w1 Hph1) as (Ht1 & Hl1 & Hs1).
  destruct (ticks_no_timers JSON_stringify storeAccepts n (unmount w1) Ht1)
    as (_ & Hl1' & Hs1').
  split; [congruence|]. split; congruence.
Qed.

Lemma unmount_cancels_pending_write_witness :
  let w1 :=
    Sample.ticks 499
      (Sample.step (SavePrize (Sample.prize "a" "Bear" "2024-01-01" Plush 1))
         (Sample.run [Mount; Tick] (init None))) in
  prizes (app w1) = [Sample.prize "a" "Bear" "2024-01-01" Plush 1]
  /\ setItemCalls (Sample.ticks 1000 (unmount w1)) = [].
Proof.
  intros w1.
  destruct (unmount_cancels_pending_write
              Sample.parse Sample.stringify Sample.accepts Sample.asPrize None
              [Mount; Tick] 1000) as (_ & _ & _ & Hlost).
  destruct (Hlost (Saved (Sample.prize "a" "Bear" "2024-01-01" Plush 1)) 499%nat)
    as (Hps & Hlog & _); [reflexivity|lia|].
  split; [exact Hps|exact Hlog].
Defined.



(** * The older component *)

Section LegacyFacts.
Variable JSON_parse : string -> option JsVal.
Variable JSON_stringify : list Prize -> string.
Variable storeAccepts : string -> bool.
Variable asPrize : JsVal -> Prize.




End LegacyFacts.


